(** * GenAI Assistant with RAG: retrieval core, prompt composer, session store

  A shallow embedding of the JavaScript sources
    - scripts/ingest.js       (chunkText)
    - utils/vector_math.js    (getSimilarity, retrieveTopK)
    - utils/rag.js            (buildPrompt, runRAGPipeline)
    - utils/sessionStore.js   (getHistory, addMessage, createSession, ...)
    - server.js               (the POST /api/chat and DELETE /api/session/:id
                               handlers)
    - the diagnostic script   (dotProduct, magnitude, cosineSimilarity)
  followed by the properties the design document states about them.

  JavaScript numbers are IEEE 754 binary64 values and are modelled by
  Rocq's primitive floats; strings are sequences of UTF-16 code units;
  a score is a number or [null]; the imported compute-cosine-similarity is
  a parameter of the ranker, which may return a number or [null] or throw;
  the session [Map] is a finite map keyed by session id; a call completes
  normally or by throwing, and the provider calls, the session map and the
  clock are threaded through the handler as an explicit world. *)

From Stdlib Require Import ZArith NArith List Bool Lia Floats Ascii String.
From stdpp Require Import base list sorting gmap.

Set Default Proof Using "Type".
Set Warnings "-inexact-float".

(** ** The JavaScript runtime pieces the sources rely on *)

Module JS.

(** A string is its sequence of UTF-16 code units. *)
Definition jsstring : Type := list N.

(** The code units of an ASCII literal. *)
Definition lit (s : string) : jsstring :=
  map N_of_ascii (list_ascii_of_string s).

Definition dquote : jsstring := [34%N].
Definition newline : jsstring := [10%N].

(** Relative index resolution shared by [String.prototype.slice] and
    [Array.prototype.slice]: a negative index counts from the end, and the
    result is clamped to [0, len]. *)
Definition relIndex (len i : Z) : Z :=
  if (i <? 0)%Z then Z.max (len + i) 0 else Z.min i len.

(** [l.slice(start, stop)]; an empty span when the resolved start is not
    before the resolved stop. *)
Definition slice {A} (l : list A) (start stop : Z) : list A :=
  let len := Z.of_nat (length l) in
  let from := relIndex len start in
  let to := relIndex len stop in
  take (Z.to_nat (to - from)) (drop (Z.to_nat from) l).

(** [l.slice(start)]: the stop index defaults to the length. *)
Definition sliceFrom {A} (l : list A) (start : Z) : list A :=
  slice l start (Z.of_nat (length l)).

(** WhiteSpace and LineTerminator code units, as [String.prototype.trim]
    strips them. *)
Definition isWhiteSpace (c : N) : bool :=
  ((9 <=? c) && (c <=? 13) || (c =? 32) || (c =? 160) || (c =? 5760)
   || (8192 <=? c) && (c <=? 8202) || (c =? 8232) || (c =? 8233)
   || (c =? 8239) || (c =? 8287) || (c =? 12288) || (c =? 65279))%N.

Fixpoint trimStart (s : jsstring) : jsstring :=
  match s with
  | c :: s' => if isWhiteSpace c then trimStart s' else s
  | [] => []
  end.

Definition trimEnd (s : jsstring) : jsstring := rev (trimStart (rev s)).

Definition trim (s : jsstring) : jsstring := trimEnd (trimStart s).

(** [parts.join(sep)]. *)
Fixpoint join (sep : jsstring) (parts : list jsstring) : jsstring :=
  match parts with
  | [] => []
  | [p] => p
  | p :: rest => p ++ sep ++ join sep rest
  end.

Fixpoint startsWith (s pre : jsstring) : bool :=
  match pre, s with
  | [], _ => true
  | p :: pre', c :: s' => (p =? c)%N && startsWith s' pre'
  | _ :: _, [] => false
  end.

(** [s.includes(sub)]. *)
Fixpoint includes (s sub : jsstring) : bool :=
  startsWith s sub ||
  match s with
  | [] => false
  | _ :: s' => includes s' sub
  end.

(** [arr.map((x, i) => f(x, i))], the index starting at [i0]. *)
Fixpoint mapi_from {A B} (f : A -> nat -> B) (i0 : nat) (l : list A) : list B :=
  match l with
  | [] => []
  | x :: l' => f x i0 :: mapi_from f (S i0) l'
  end.

Definition mapi {A B} (f : A -> nat -> B) (l : list A) : list B :=
  mapi_from f 0 l.


(** [arr.sort(comparefn)].  The sort is stable; [comparefn(a, b) > 0] is the
    only outcome that moves [a] behind [b] (a NaN outcome counts as [+0]).
    For a consistent comparator every stable sort yields this result; it is
    computed here by stable insertion from the right. *)
Fixpoint sortInsert {A} (comparefn : A -> A -> float) (x : A) (sorted : list A) : list A :=
  match sorted with
  | [] => [x]
  | y :: rest =>
      if (0 <? comparefn x y)%float then y :: sortInsert comparefn x rest
      else x :: sorted
  end.

Definition sort {A} (comparefn : A -> A -> float) (l : list A) : list A :=
  foldr (sortInsert comparefn) [] l.

(** *** Completions and effects *)

(** How a call completes: normally with a value, or abruptly with a thrown
    [Error] (kept as its [message]). *)
Inductive Completion (A : Type) : Type :=
  | Normal (a : A)
  | Throw (message : jsstring).
Arguments Normal {A} a.
Arguments Throw {A} message.

(** Computations over a mutable world [W] that may throw. *)
Definition M (W A : Type) : Type := W -> Completion A * W.

Definition ret {W A} (a : A) : M W A := fun w => (Normal a, w).

Definition throw {W A} (message : jsstring) : M W A := fun w => (Throw message, w).

Definition bind {W A B} (m : M W A) (k : A -> M W B) : M W B :=
  fun w =>
    match m w with
    | (Normal a, w') => k a w'
    | (Throw e, w') => (Throw e, w')
    end.

(** A call that completes without touching the world. *)
Definition complete {W A} (c : Completion A) : M W A := fun w => (c, w).

(** [try { body } catch (err) { handler(err.message) }] *)
Definition tryCatch {W A} (body : M W A) (handler : jsstring -> M W A) : M W A :=
  fun w =>
    match body w with
    | (Normal a, w') => (Normal a, w')
    | (Throw e, w') => handler e w'
    end.

Declare Scope js_scope.
Delimit Scope js_scope with js.
Notation "'let*' x ':=' m 'in' k" := (bind m (fun x => k))
  (at level 10, x name, m at level 100, k at level 200) : js_scope.

(** *** Numbers as text *)

Fixpoint decimalDigits (fuel : nat) (n : N) (acc : jsstring) : jsstring :=
  match fuel with
  | O => acc
  | S fuel' =>
      let acc' := (48 + n mod 10)%N :: acc in
      if (n / 10 =? 0)%N then acc' else decimalDigits fuel' (n / 10)%N acc'
  end.

(** The decimal digits of a non-negative integer, as [String(n)] prints
    an integer index or count. *)
Definition decimal (n : N) : jsstring :=
  decimalDigits (S (N.to_nat (N.log2 n))) n [].

(** The Number value for an exact non-negative integer (round to nearest,
    ties to even). *)
Definition floatOfZ (z : Z) : float :=
  SF2Prim (binary_normalize prec emax z 0 false).

(** The Number value for [m * 10^e10], [m] a non-negative integer. *)
Definition floatOfDecimal (m : N) (e10 : Z) : float :=
  match m with
  | N0 => 0%float
  | Npos p =>
      if (0 <=? e10)%Z then floatOfZ (Zpos p * 10 ^ e10)
      else SF2Prim (SFdiv prec emax (S754_finite false p 0)
                          (S754_finite false (Z.to_pos (10 ^ (- e10))) 0))
  end.

(** Step 5 of [Number.prototype.toFixed]: the integer [n] with [n / 10^f]
    closest to [m * 2^e], the larger one on a tie. *)
Definition fixedInteger (m : positive) (e : Z) (f : nat) : Z :=
  let scaled := (Zpos m * 10 ^ Z.of_nat f)%Z in
  if (0 <=? e)%Z then (scaled * 2 ^ e)%Z
  else ((2 * scaled + 2 ^ (- e)) / (2 * 2 ^ (- e)))%Z.

(** Steps 5.b-5.c: the digits of [n] with a point before the last [f]. *)
Definition fixedText (n : Z) (f : nat) : jsstring :=
  let m := decimal (Z.to_N n) in
  match f with
  | O => m
  | S _ =>
      let m := replicate (S f - length m) 48%N ++ m in
      take (length m - f) m ++ lit "." ++ drop (length m - f) m
  end.

(** [Number::toString] for a finite value [x >= 10^21], whose exact integer
    value is [X]: the shortest digit string [s] (of [k] digits) such that
    [s * 10^(n-k)] reads back as [x], printed in exponent form. *)
Fixpoint shortestDigits (x : float) (X : Z) (nd : nat) (k : nat) (tries : nat)
    : Z * nat :=
  let scale := (10 ^ Z.of_nat (nd - k))%Z in
  let lo := (X / scale)%Z in
  let hi := (lo + 1)%Z in
  let okLo := (floatOfZ (lo * scale) =? x)%float in
  let okHi := (floatOfZ (hi * scale) =? x)%float in
  let pick :=
    if okLo && okHi then
      match (X - lo * scale ?= hi * scale - X)%Z with
      | Lt => lo
      | Gt => hi
      | Eq => if Z.even lo then lo else hi
      end
    else if okHi then hi else lo in
  match tries with
  | O => (pick, k)
  | S tries' =>
      if okLo || okHi then (pick, k)
      else shortestDigits x X nd (S k) tries'
  end.

Definition exponentText (x : float) (X : Z) : jsstring :=
  let nd := length (decimal (Z.to_N X)) in
  let '(s, k) := shortestDigits x X nd 1 16 in
  (* [s = 10^k] is the single digit 1 one decade up *)
  let '(s, n) := if (s =? 10 ^ Z.of_nat k)%Z then (1%Z, S nd) else (s, nd) in
  let digits := decimal (Z.to_N s) in
  let mantissa :=
    match digits with
    | [d] => [d]
    | d :: more => d :: lit "." ++ more
    | [] => []
    end in
  mantissa ++ lit "e+" ++ decimal (N.of_nat (n - 1)).

(** [x.toFixed(f)] for [0 <= f <= 100]. *)
Definition toFixed (x : float) (f : nat) : jsstring :=
  match Prim2SF x with
  | S754_nan => lit "NaN"
  | S754_infinity false => lit "Infinity"
  | S754_infinity true => lit "-Infinity"
  | S754_zero _ => fixedText 0 f
  | S754_finite s m e =>
      (if s then lit "-" else []) ++
      (if (0 <=? e)%Z && (10 ^ 21 <=? Zpos m * 2 ^ e)%Z
       then exponentText (abs x) (Zpos m * 2 ^ e)
       else fixedText (fixedInteger m e f) f)
  end.

(** *** Text as numbers *)

Definition isDigit (c : N) : bool := ((48 <=? c) && (c <=? 57))%N.

(** Reads a run of decimal digits: their value, how many, and the rest. *)
Fixpoint readDigits (s : jsstring) (value : N) (count : nat) : N * nat * jsstring :=
  match s with
  | c :: s' =>
      if isDigit c then readDigits s' (10 * value + (c - 48))%N (S count)
      else (value, count, s)
  | [] => (value, count, [])
  end.

(** The optional exponent part [e[+-]digits] of a decimal literal. *)
Definition readExponent (s : jsstring) : Z :=
  match s with
  | c :: s' =>
      if ((c =? 101) || (c =? 69))%N then
        let '(neg, s'') :=
          match s' with
          | sg :: t => if (sg =? 45)%N then (true, t)
                       else if (sg =? 43)%N then (false, t) else (false, s')
          | [] => (false, s')
          end in
        let '(v, n, _) := readDigits s'' 0 0 in
        match n with
        | O => 0%Z
        | S _ => if neg then (- Z.of_N v)%Z else Z.of_N v
        end
      else 0%Z
  | [] => 0%Z
  end.

(** [parseFloat(s)]: leading white space, an optional sign, then [Infinity]
    or the longest decimal literal; [NaN] when there is none. *)
Definition parseFloat (s : jsstring) : float :=
  let s := trimStart s in
  let '(neg, s) :=
    match s with
    | sg :: t => if (sg =? 45)%N then (true, t)
                 else if (sg =? 43)%N then (false, t) else (false, s)
    | [] => (false, s)
    end in
  let signed (x : float) : float := if neg then (- x)%float else x in
  if startsWith s (lit "Infinity") then signed infinity
  else
    let '(ip, ni, s1) := readDigits s 0 0 in
    let '(fp, nf, s2) :=
      match s1 with
      | c :: t => if (c =? 46)%N then readDigits t ip 0 else (ip, O, s1)
      | [] => (ip, O, s1)
      end in
    match (ni + nf)%nat with
    | O => nan
    | S _ => signed (floatOfDecimal fp (readExponent s2 - Z.of_nat nf))
    end.

(** *** Values that are a number or [null] *)

(** [ToNumber]: what a number-or-[null] counts as in arithmetic and in
    comparisons; [null] counts as [+0]. *)
Definition toNumber (x : option float) : float :=
  match x with
  | Some n => n
  | None => 0%float
  end.

(** [isNaN(x)] *)
Definition isNaN (x : option float) : bool := is_nan (toNumber x).

(** The message of the [TypeError] for [x.toFixed] when [x] is [null], in
    Node's wording. *)
Definition NULL_TO_FIXED : jsstring :=
  lit "Cannot read properties of null (reading 'toFixed')".

(** [arr.map(f)] for a callback that may throw: the first throw ends the
    map. *)
Fixpoint mapThrowing {A B} (f : A -> Completion B) (l : list A)
    : Completion (list B) :=
  match l with
  | [] => Normal []
  | x :: rest =>
      match f x with
      | Throw e => Throw e
      | Normal y =>
          match mapThrowing f rest with
          | Throw e => Throw e
          | Normal ys => Normal (y :: ys)
          end
      end
  end.

End JS.

(** ** utils/sessionStore.js *)

Module SessionStore.
Import JS.

Inductive Role := user | model.

(** [{ role, content, timestamp }] *)
Record Message := mkMessage {
  role : Role;
  content : jsstring;
  timestamp : jsstring
}.

(** [const sessions = new Map()] : sessionId -> messages[] *)
Abbreviation Sessions := (gmap jsstring (list Message)).

Definition MAX_HISTORY_PAIRS : Z := 5.

Definition sessionExists (sessions : Sessions) (sessionId : jsstring) : bool :=
  bool_decide (is_Some (sessions !! sessionId)).

Definition getHistory (sessions : Sessions) (sessionId : jsstring) : list Message :=
  match sessions !! sessionId with
  | None => []
  | Some messages => sliceFrom messages (- (MAX_HISTORY_PAIRS * 2))
  end.

(** The timestamp is [new Date().toISOString()], read by the caller. *)
Definition addMessage (sessions : Sessions) (sessionId : jsstring)
    (r : Role) (c : jsstring) (now : jsstring) : Sessions :=
  let sessions1 :=
    if sessionExists sessions sessionId then sessions
    else <[sessionId := []]> sessions in
  match sessions1 !! sessionId with
  | Some messages =>
      <[sessionId := messages ++ [mkMessage r c now]]> sessions1
  | None => sessions1
  end.

Definition createSession (sessions : Sessions) (sessionId : jsstring) : Sessions :=
  <[sessionId := []]> sessions.

Definition clearSession (sessions : Sessions) (sessionId : jsstring) : Sessions :=
  <[sessionId := []]> sessions.

Definition getSessionCount (sessions : Sessions) : nat := size sessions.

End SessionStore.

(** ** scripts/ingest.js *)

Module Ingest.
Import JS.

Definition CHUNK_SIZE_CHARS : Z := 1500.
Definition CHUNK_OVERLAP_CHARS : Z := 200.

(** The [while] loop of [chunkText], one iteration per unit of fuel, with
    the loop variables [start] and [chunks]; [None] when the loop is still
    running after [fuel] iterations.  The function contains no [throw]. *)
Fixpoint chunkLoop (fuel : nat) (text : jsstring) (chunkSize overlap : Z)
    (start : Z) (chunks : list jsstring) : option (Completion (list jsstring)) :=
  match fuel with
  | O => None
  | S fuel' =>
      if (start <? Z.of_nat (length text))%Z then
        let end_ := Z.min (start + chunkSize) (Z.of_nat (length text)) in
        let chunks := chunks ++ [trim (slice text start end_)] in
        if (end_ =? Z.of_nat (length text))%Z then Some (Normal chunks)
        else chunkLoop fuel' text chunkSize overlap (start + (chunkSize - overlap)) chunks
      else Some (Normal chunks)
  end.

Definition chunkText (fuel : nat) (text : jsstring) (chunkSize overlap : Z)
    : option (Completion (list jsstring)) :=
  chunkLoop fuel text chunkSize overlap 0 [].

(** The same loop recording each window [text.slice(start, end)] before it
    is trimmed. *)
Fixpoint windowLoop (fuel : nat) (text : jsstring) (chunkSize overlap : Z)
    (start : Z) (windows : list jsstring) : option (list jsstring) :=
  match fuel with
  | O => None
  | S fuel' =>
      if (start <? Z.of_nat (length text))%Z then
        let end_ := Z.min (start + chunkSize) (Z.of_nat (length text)) in
        let windows := windows ++ [slice text start end_] in
        if (end_ =? Z.of_nat (length text))%Z then Some windows
        else windowLoop fuel' text chunkSize overlap (start + (chunkSize - overlap)) windows
      else Some windows
  end.

Definition chunkWindows (fuel : nat) (text : jsstring) (chunkSize overlap : Z)
    : option (list jsstring) :=
  windowLoop fuel text chunkSize overlap 0 [].

(** Concatenation with the overlap regions de-duplicated: every piece after
    the first contributes what follows its first [overlap] characters. *)
Definition concatDedup (overlap : Z) (pieces : list jsstring) : jsstring :=
  match pieces with
  | [] => []
  | first :: rest => first ++ concat (map (fun p => sliceFrom p overlap) rest)
  end.

End Ingest.

(** ** The diagnostic script: cosine similarity written out *)

Module Diagnose.

(** [a.reduce((sum, val, i) => sum + val * b[i], 0)]; a missing [b[i]] is
    [undefined], which makes the product NaN. *)
Fixpoint dotFrom (sum : float) (a b : list float) : float :=
  match a with
  | [] => sum
  | val :: a' =>
      dotFrom (sum + val * match b with bi :: _ => bi | [] => nan end)%float
              a' (tl b)
  end.

Definition dotProduct (a b : list float) : float := dotFrom 0%float a b.

Definition magnitude (a : list float) : float :=
  sqrt (fold_left (fun sum val => sum + val * val)%float a 0%float).

(** The diagnostic script's own [cosineSimilarity]: the dot product of the
    two vectors divided by the product of their magnitudes, which is how the
    design document defines cosine similarity. *)
Definition cosineSimilarity (a b : list float) : float :=
  (dotProduct a b / (magnitude a * magnitude b))%float.

End Diagnose.

(** ** utils/vector_math.js *)

Module VectorMath.
Import JS.

(** What a vector argument or an [embedding] field holds: nothing usable
    ([undefined], [null] or another falsy value), an array of numbers, or
    some other truthy value (a string, an object, ...), of which only its
    [length], when that is a number, and its rendering as a string
    matter. *)
Inductive Vector :=
  | Absent
  | Numbers (v : list float)
  | NotArray (len : option nat) (text : jsstring).

(** [vec.length] of a truthy value; [None] is [undefined]. *)
Definition vectorLength (vec : Vector) : option nat :=
  match vec with
  | Absent => None
  | Numbers v => Some (length v)
  | NotArray len _ => len
  end.

(** A record of the vector store. *)
Record EmbeddedChunk := mkEmbeddedChunk {
  id : jsstring;
  docId : jsstring;
  title : jsstring;
  chunkIndex : nat;
  content : jsstring;
  embedding : Vector
}.

(** The object [{ id, title, content, score }] built for each document;
    [s_id], [s_title] and [s_content] are its [id], [title] and [content].
    The score is a number or [null]. *)
Record ScoredChunk := mkScoredChunk {
  s_id : jsstring;
  s_title : jsstring;
  s_content : jsstring;
  score : option float
}.

Section WithLibrary.

(** The imported [compute-cosine-similarity]: a call returns a number or
    [null], or throws. *)
Variable cosineSimilarity : Vector -> Vector -> Completion (option float).

Definition getSimilarity (vecA vecB : Vector) : Completion (option float) :=
  match vecA, vecB with
  | Absent, _ | _, Absent => Normal (Some 0%float)
  | _, _ =>
      if negb (bool_decide (vectorLength vecA = vectorLength vecB))
      then Normal (Some 0%float)
      else
        match cosineSimilarity vecA vecB with
        | Throw e => Throw e
        | Normal result => if isNaN result then Normal (Some 0%float) else Normal result
        end
  end.

Definition scoreDoc (queryVector : Vector) (doc : EmbeddedChunk)
    : Completion ScoredChunk :=
  match getSimilarity queryVector (embedding doc) with
  | Throw e => Throw e
  | Normal similarity =>
      Normal {| s_id := id doc;
                s_title := title doc;
                s_content := content doc;
                score := similarity |}
  end.

(** The chain [.filter(...).sort(...).slice(0, k)] on the scored chunks; a
    [null] score counts as [0] in the comparison and in the difference.
    [k] is a number of results. *)
Definition rankScored (scored : list ScoredChunk) (k : nat) (threshold : float)
    : list ScoredChunk :=
  slice
    (sort (fun a b => toNumber (score b) - toNumber (score a))%float
       (filter (fun doc => (threshold <=? toNumber (score doc))%float = true) scored))
    0 (Z.of_nat k).

Definition retrieveTopK (queryVector : Vector)
    (documents : list EmbeddedChunk) (k : nat) (threshold : float)
    : Completion (list ScoredChunk) :=
  match mapThrowing (scoreDoc queryVector) documents with
  | Throw e => Throw e
  | Normal scored => Normal (rankScored scored k threshold)
  end.

End WithLibrary.

End VectorMath.

(** ** The imported package *)

Module Package.
Import JS VectorMath.

Definition invalidArgument (which : string) (rendering : jsstring) : jsstring :=
  lit "cosine-similarity()::invalid input argument. " ++ lit which
  ++ lit " argument must be an array. Value: `" ++ rendering ++ lit "`.".

(** [String(vec)] of a value that is not an array; the ranker never passes
    a missing one. *)
Definition rendering (vec : Vector) : jsstring :=
  match vec with
  | NotArray _ text => text
  | _ => lit "undefined"
  end.

(** [compute-cosine-similarity] is not part of the repository.  This is its
    published behaviour: it throws when an argument is not an array or when
    the arrays differ in length, returns [null] for two empty arrays, and
    otherwise the cosine similarity, computed here as the design document
    defines it and as the repository's diagnostic script does: the dot
    product over the product of the magnitudes. *)
Definition cosineSimilarity (x y : Vector) : Completion (option float) :=
  match x, y with
  | Numbers a, Numbers b =>
      if negb (length a =? length b)%nat
      then Throw (lit "cosine-similarity()::invalid input argument. Input arrays must have the same length.")
      else if (length a =? 0)%nat then Normal None
      else Normal (Some (Diagnose.cosineSimilarity a b))
  | Numbers _, _ => Throw (invalidArgument "Second" (rendering y))
  | _, _ => Throw (invalidArgument "First" (rendering x))
  end.

End Package.

(** ** utils/rag.js *)

Module Rag.
Import JS VectorMath SessionStore.

Definition TOP_K_RESULTS : nat := 3.

(** The provider calls a pipeline run makes, in order. *)
Inductive Call :=
  | EmbedContent (text : jsstring)
  | GenerateContent (prompt : jsstring).

Record UsageMetadata := mkUsage {
  promptTokenCount : option N;
  candidatesTokenCount : option N
}.

(** [result.response]: [text()] is a method of the provider's response and
    may itself throw; [usageMetadata] may be absent. *)
Record LLMResponse := mkLLMResponse {
  text : Completion jsstring;
  usageMetadata : option UsageMetadata
}.

(** The two model handles set up by [initRAG].  A call's outcome may depend
    on the calls made before it; [embedContent] yields
    [embedResult.embedding.values]. *)
Record Provider := mkProvider {
  embedContent : list Call -> jsstring -> Completion (option (list float));
  generateContent : list Call -> jsstring -> Completion LLMResponse
}.

(** An entry [{ title, score }] of the result's [scores]. *)
Record Score := mkScore { sc_title : jsstring; sc_score : float }.

Record RAGResult := mkRAGResult {
  reply : jsstring;
  tokensUsed : N;
  retrievedChunks : nat;
  scores : list Score;
  fallback : bool
}.

Definition renderChunk (chunk : ScoredChunk) (i : nat) : jsstring :=
  lit "[" ++ decimal (N.of_nat (i + 1)) ++ lit "] (Source: " ++ dquote
  ++ s_title chunk ++ dquote ++ lit ", Relevance: "
  ++ toFixed (toNumber (score chunk) * 100)%float 1 ++ lit "%)" ++ newline
  ++ s_content chunk.

Definition renderTurn (m : Message) : jsstring :=
  (match role m with user => lit "User" | _ => lit "Assistant" end)
  ++ lit ": " ++ content m.

Definition INSTRUCTIONS : jsstring :=
  lit "You are a helpful, accurate support assistant. Your responses must be based ONLY on the provided context below. "
  ++ newline
  ++ lit "If the context does not contain enough information to answer the question, honestly say: "
  ++ dquote
  ++ lit "I don't have enough information in my knowledge base to answer that question accurately. Please contact support for further help."
  ++ dquote ++ newline
  ++ lit "Do NOT make up information or use outside knowledge.".

Definition buildPrompt (retrievedChunks : list ScoredChunk)
    (history : list Message) (userMessage : jsstring) : jsstring :=
  let contextBlock :=
    if (0 <? length retrievedChunks)%nat
    then join (newline ++ newline) (mapi renderChunk retrievedChunks)
    else lit "No relevant context found." in
  let historyBlock :=
    if (0 <? length history)%nat
    then join newline (map renderTurn history)
    else lit "No previous conversation." in
  INSTRUCTIONS ++ newline ++ newline
  ++ lit "---" ++ newline
  ++ lit "CONTEXT FROM KNOWLEDGE BASE:" ++ newline
  ++ contextBlock ++ newline ++ newline
  ++ lit "---" ++ newline
  ++ lit "CONVERSATION HISTORY:" ++ newline
  ++ historyBlock ++ newline ++ newline
  ++ lit "---" ++ newline
  ++ lit "USER QUESTION:" ++ newline
  ++ userMessage ++ newline ++ newline
  ++ lit "ANSWER:".

Definition FALLBACK_REPLY : jsstring :=
  lit "I'm sorry, I couldn't find relevant information in my knowledge base to answer your question. For more help, please contact our support team at support@company.com.".

Definition fallbackResult : RAGResult :=
  {| reply := FALLBACK_REPLY;
     tokensUsed := 0;
     retrievedChunks := 0;
     scores := [];
     fallback := true |}.

(** [embedResult.embedding.values] as a vector argument. *)
Definition vectorOf (values : option (list float)) : Vector :=
  match values with
  | Some v => Numbers v
  | None => Absent
  end.

Section WithProvider.

Variable cosineSimilarity : Vector -> Vector -> Completion (option float).
Variable provider : Provider.

(** [await embeddingModel.embedContent(text)] *)
Definition callEmbed (text : jsstring) : M (list Call) (option (list float)) :=
  fun calls => (embedContent provider calls text, calls ++ [EmbedContent text]).

(** [await chatModel.generateContent(prompt)] *)
Definition callGenerate (prompt : jsstring) : M (list Call) LLMResponse :=
  fun calls => (generateContent provider calls prompt, calls ++ [GenerateContent prompt]).

Definition orZero (count : option N) : N :=
  match count with Some n => n | None => 0%N end.

(** The entry [{ title, score }] of a retrieved chunk; [c.score.toFixed(4)]
    throws when the score is [null]. *)
Definition scoreEntry (c : ScoredChunk) : Completion Score :=
  match score c with
  | None => Throw NULL_TO_FIXED
  | Some s => Normal {| sc_title := s_title c; sc_score := parseFloat (toFixed s 4) |}
  end.

Definition runRAGPipeline (userMessage : jsstring)
    (vectorStore : list EmbeddedChunk) (history : list Message)
    (threshold : float) : M (list Call) RAGResult :=
  (let* queryEmbedding :=
     tryCatch (callEmbed userMessage)
       (fun message => throw (lit "Embedding API error: " ++ message)) in
   let* topChunks :=
     complete (retrieveTopK cosineSimilarity (vectorOf queryEmbedding) vectorStore
                 TOP_K_RESULTS threshold) in
   if (length topChunks =? 0)%nat then ret fallbackResult
   else
     let prompt := buildPrompt topChunks history userMessage in
     let* llmResponse :=
       tryCatch (callGenerate prompt)
         (fun message => throw (lit "LLM API error: " ++ message)) in
     let* reply := complete (text llmResponse) in
     let tokensUsed :=
       match usageMetadata llmResponse with
       | Some u => (orZero (promptTokenCount u) + orZero (candidatesTokenCount u))%N
       | None => 0%N
       end in
     let* scores := complete (mapThrowing scoreEntry topChunks) in
     ret {| reply := reply;
            tokensUsed := tokensUsed;
            retrievedChunks := length topChunks;
            scores := scores;
            fallback := false |})%js.

End WithProvider.

End Rag.

(** ** server.js: POST /api/chat *)

Module Server.
Import JS VectorMath SessionStore Rag.

(** A field of [req.body]. *)
Inductive BodyField :=
  | Missing
  | Str (s : jsstring)
  | NotAString.

Record ChatRequest := mkChatRequest {
  sessionId : BodyField;
  message : BodyField
}.

Inductive ResponseBody :=
  | ErrorBody (error : jsstring)
  | MessageBody (message : jsstring)
  | ChatBody (result : RAGResult) (latencyMs : Z).

Record Response := mkResponse {
  status : nat;
  body : ResponseBody
}.

(** What the handler reads and writes: the session map, the provider call
    log, and how many times the clock has been read. *)
Record World := mkWorld {
  sessions : gmap jsstring (list Message);
  calls : list Call;
  clockReads : nat
}.

(** The process around the handler: the loaded store, the configured
    threshold, the provider, and the clock ([Date.now()] and
    [new Date().toISOString()] at the n-th reading). *)
Record Env := mkEnv {
  vectorStore : list EmbeddedChunk;
  SIMILARITY_THRESHOLD : float;
  cosine : Vector -> Vector -> Completion (option float);
  provider : Provider;
  dateNow : nat -> Z;
  isoString : nat -> jsstring
}.

(** [!field || typeof field !== 'string'] fails exactly on a non-empty
    string. *)
Definition requiredString (field : BodyField) : option jsstring :=
  match field with
  | Str (c :: s) => Some (c :: s)
  | _ => None
  end.

Definition readClock (w : World) : nat * World :=
  (clockReads w,
   {| sessions := sessions w; calls := calls w; clockReads := S (clockReads w) |}).

Definition withSessions (w : World) (s : gmap jsstring (list Message)) : World :=
  {| sessions := s; calls := calls w; clockReads := clockReads w |}.

Definition withCalls (w : World) (c : list Call) : World :=
  {| sessions := sessions w; calls := c; clockReads := clockReads w |}.

(** [addMessage(sessionId, role, content)] with its clock reading. *)
Definition recordMessage (env : Env) (sessionId : jsstring) (r : Role)
    (c : jsstring) (w : World) : World :=
  let '(t, w) := readClock w in
  withSessions w (addMessage (sessions w) sessionId r c (isoString env t)).

(** The [catch] block: the status is chosen by what the message contains. *)
Definition errorResponse (message : jsstring) : Response :=
  if includes message (lit "API key")
  then mkResponse 401 (ErrorBody (lit "Invalid API key. Check your GEMINI_API_KEY."))
  else if includes message (lit "quota") || includes message (lit "rate")
  then mkResponse 429 (ErrorBody (lit "Rate limit exceeded. Please try again later."))
  else if includes message (lit "timeout") || includes message (lit "ETIMEDOUT")
  then mkResponse 504 (ErrorBody (lit "Request to AI provider timed out. Please retry."))
  else mkResponse 500 (ErrorBody (lit "An internal error occurred. Please try again.")).

(** [DELETE /api/session/:id] *)
Definition deleteSession (id : jsstring) (w : World) : Response * World :=
  if negb (sessionExists (sessions w) id) then
    (mkResponse 404 (ErrorBody (lit "Session not found")), w)
  else
    (mkResponse 200 (MessageBody (lit "Session cleared successfully")),
     withSessions w (clearSession (sessions w) id)).

(** [POST /api/chat] *)
Definition chat (env : Env) (req : ChatRequest) (w : World) : Response * World :=
  match requiredString (sessionId req) with
  | None =>
      (mkResponse 400 (ErrorBody (lit "sessionId is required and must be a string.")), w)
  | Some sessionId =>
  match requiredString (message req) with
  | None =>
      (mkResponse 400 (ErrorBody (lit "message is required and must be a string.")), w)
  | Some message =>
      let trimmedMessage := trim message in
      if (length trimmedMessage =? 0)%nat then
        (mkResponse 400 (ErrorBody (lit "message cannot be empty.")), w)
      else if (2000 <? length trimmedMessage)%nat then
        (mkResponse 400 (ErrorBody (lit "message is too long (max 2000 characters).")), w)
      else
        (* auto-create the session *)
        let w :=
          if sessionExists (sessions w) sessionId then w
          else withSessions w (createSession (sessions w) sessionId) in
        let history := getHistory (sessions w) sessionId in
        let '(t0, w) := readClock w in
        let startTime := dateNow env t0 in
        match runRAGPipeline (cosine env) (provider env) trimmedMessage
                (vectorStore env) history (SIMILARITY_THRESHOLD env) (calls w) with
        | (Normal result, calls') =>
            let w := withCalls w calls' in
            let '(t1, w) := readClock w in
            let latencyMs := (dateNow env t1 - startTime)%Z in
            let w := recordMessage env sessionId user trimmedMessage w in
            let w := recordMessage env sessionId model (reply result) w in
            (mkResponse 200 (ChatBody result latencyMs), w)
        | (Throw message, calls') =>
            (errorResponse message, withCalls w calls')
        end
  end
  end.

End Server.

(** ** Slices *)

Section SliceFacts.
Import JS.
Context {A : Type}.
Implicit Types l : list A.

Lemma slice_nat l (a b : nat) :
  a <= b -> b <= length l ->
  slice l (Z.of_nat a) (Z.of_nat b) = take (b - a) (drop a l).
Proof.
  intros Hab Hb. unfold slice, relIndex.
  destruct (Z.ltb_spec (Z.of_nat a) 0); [lia |].
  destruct (Z.ltb_spec (Z.of_nat b) 0); [lia |].
  rewrite !Z.min_l by lia.
  f_equal; [| f_equal]; lia.
Qed.

Lemma slice_prefix l (k : nat) : slice l 0 (Z.of_nat k) = take k l.
Proof.
  unfold slice, relIndex. simpl.
  destruct (Z.ltb_spec (Z.of_nat k) 0); [lia |].
  rewrite (Z.min_l 0) by lia. change (Z.to_nat 0) with 0.
  rewrite drop_0, Z.sub_0_r.
  destruct (Nat.le_gt_cases k (length l)).
  - rewrite Z.min_l by lia. f_equal. lia.
  - rewrite Z.min_r by lia. rewrite Nat2Z.id.
    by rewrite !take_ge by lia.
Qed.

Lemma sliceFrom_nat l (a : nat) : sliceFrom l (Z.of_nat a) = drop a l.
Proof.
  unfold sliceFrom, slice, relIndex.
  destruct (Z.ltb_spec (Z.of_nat a) 0); [lia |].
  destruct (Z.ltb_spec (Z.of_nat (length l)) 0); [lia |].
  destruct (Nat.le_gt_cases a (length l)).
  - rewrite !Z.min_l by lia. rewrite Nat2Z.id.
    apply take_ge. rewrite length_drop. lia.
  - rewrite Z.min_id, (Z.min_r (Z.of_nat a)) by lia.
    rewrite Z.sub_diag. change (Z.to_nat 0) with 0.
    by rewrite take_0, drop_ge by lia.
Qed.

Lemma sliceFrom_last l (n : nat) :
  0 < n -> sliceFrom l (- Z.of_nat n) = drop (length l - n) l.
Proof.
  intros Hn. unfold sliceFrom, slice, relIndex.
  destruct (Z.ltb_spec (- Z.of_nat n) 0); [| lia].
  destruct (Z.ltb_spec (Z.of_nat (length l)) 0); [lia |].
  rewrite Z.min_l by lia.
  replace (Z.to_nat (Z.max (Z.of_nat (length l) + - Z.of_nat n) 0))
    with (length l - n) by lia.
  apply take_ge. rewrite length_drop. lia.
Qed.

End SliceFacts.

(** ** The order of numbers and the sign of a difference *)

Section FloatFacts.

Lemma SFcompare_antisym x y :
  SFcompare y x = option_map CompOpp (SFcompare x y).
Proof.
  destruct x as [sx | sx | | sx mx ex], y as [sy | sy | | sy my ey]; simpl;
    try destruct sx; try destruct sy; try reflexivity;
    rewrite (Z.compare_antisym ex ey); destruct (ex ?= ey)%Z; simpl;
    try reflexivity; rewrite (Pos.compare_cont_antisym mx my Eq);
    simpl; try reflexivity.
Qed.

Lemma SFcompare_None x y :
  SFcompare x y = None <-> x = S754_nan \/ y = S754_nan.
Proof.
  destruct x as [sx | sx | | sx mx ex], y as [sy | sy | | sy my ey]; simpl;
    split; intros H; try discriminate; auto;
    try (destruct H; discriminate).
Qed.

Lemma SFcompare_refl x : x <> S754_nan -> SFcompare x x = Some Eq.
Proof.
  destruct x as [s | s | | s m e]; simpl; intros H; try congruence.
  - destruct s; reflexivity.
  - rewrite Z.compare_refl, Pos.compare_cont_refl. destruct s; reflexivity.
Qed.

Lemma is_nan_true x : is_nan x = true <-> Prim2SF x = S754_nan.
Proof.
  unfold is_nan. rewrite FloatAxioms.eqb_spec. unfold SFeqb. split.
  - intros H. destruct (SFcompare (Prim2SF x) (Prim2SF x)) eqn:E.
    + destruct (Prim2SF x) eqn:Ex; try reflexivity;
        rewrite SFcompare_refl in E by discriminate;
        injection E as <-; discriminate.
    + apply SFcompare_None in E. tauto.
  - intros ->. reflexivity.
Qed.

Lemma is_nan_false x : is_nan x = false <-> Prim2SF x <> S754_nan.
Proof.
  rewrite <- is_nan_true. destruct (is_nan x); split; congruence.
Qed.

(** [x < y] excludes [y <= x]. *)
Lemma ltb_leb_false x y : (x <? y)%float = true -> (y <=? x)%float = false.
Proof.
  rewrite FloatAxioms.ltb_spec, FloatAxioms.leb_spec. unfold SFltb, SFleb.
  rewrite (SFcompare_antisym (Prim2SF x) (Prim2SF y)).
  destruct (SFcompare (Prim2SF x) (Prim2SF y)) as [[ | | ] |]; simpl; congruence.
Qed.

Lemma ltb_leb x y : (x <? y)%float = true -> (x <=? y)%float = true.
Proof.
  rewrite FloatAxioms.ltb_spec, FloatAxioms.leb_spec. unfold SFltb, SFleb.
  destruct (SFcompare (Prim2SF x) (Prim2SF y)) as [[ | | ] |]; simpl; congruence.
Qed.

(** On numbers that are not NaN the order is total. *)
Lemma ltb_false_leb x y :
  is_nan x = false -> is_nan y = false ->
  (x <? y)%float = false -> (y <=? x)%float = true.
Proof.
  rewrite !is_nan_false, FloatAxioms.ltb_spec, FloatAxioms.leb_spec. unfold SFltb, SFleb.
  intros Hx Hy. rewrite (SFcompare_antisym (Prim2SF x) (Prim2SF y)).
  destruct (SFcompare (Prim2SF x) (Prim2SF y)) as [[ | | ] |] eqn:E;
    simpl; try congruence.
  apply SFcompare_None in E. tauto.
Qed.

(** *** The sign of a difference *)

Lemma digits2_pos_size p : digits2_pos p = Pos.size p.
Proof. induction p; simpl; congruence. Qed.

Lemma digits2_pos_bounds p :
  (2 ^ (Zpos (digits2_pos p) - 1) <= Zpos p < 2 ^ Zpos (digits2_pos p))%Z.
Proof.
  rewrite digits2_pos_size.
  pose proof (Pos.size_gt p) as Hgt. pose proof (Pos.size_le p) as Hle.
  apply Pos2Z.pos_lt_pos in Hgt. apply Pos2Z.pos_le_pos in Hle.
  rewrite Pos2Z.inj_pow in Hgt, Hle.
  replace (Zpos (Pos.size p)) with (Z.succ (Zpos (Pos.size p) - 1)) in Hle at 1 by lia.
  rewrite Z.pow_succ_r in Hle by lia.
  generalize dependent (2 ^ (Zpos (Pos.size p) - 1))%Z.
  generalize dependent (2 ^ Zpos (Pos.size p))%Z. intros.
  lia.
Qed.

Lemma iter_xO_value m d : Zpos (Pos.iter xO m d) = (Zpos m * 2 ^ Zpos d)%Z.
Proof.
  induction d as [| d IH] using Pos.peano_ind.
  - simpl. lia.
  - rewrite Pos.iter_succ, Pos2Z.inj_xO, IH, Pos2Z.inj_succ, Z.pow_succ_r by lia.
    lia.
Qed.

Lemma shl_align_value m e ez :
  (ez <= e)%Z -> Zpos (fst (shl_align m e ez)) = (Zpos m * 2 ^ (e - ez))%Z.
Proof.
  intros Hle. unfold shl_align.
  destruct (ez - e)%Z as [| d | d] eqn:E; cbn [fst].
  - replace (e - ez)%Z with 0%Z by lia. rewrite Z.pow_0_r. lia.
  - lia.
  - rewrite iter_xO_value. f_equal. f_equal. lia.
Qed.

Lemma bounded_facts m e :
  bounded prec emax m e = true ->
  (-1074 <= e <= 971)%Z
  /\ (Zpos (digits2_pos m) <= 53)%Z
  /\ (-1074 < e -> Zpos (digits2_pos m) = 53)%Z.
Proof.
  unfold bounded, canonical_mantissa, fexp, emin, prec, emax.
  intros H. apply andb_true_iff in H as [H1 H2].
  apply Z.eqb_eq in H1. apply Z.leb_le in H2. lia.
Qed.


Lemma mantissa_lt_of_exponent_lt mx ex my ey :
  bounded prec emax mx ex = true -> bounded prec emax my ey = true ->
  (ex < ey)%Z -> (Zpos mx < Zpos my * 2 ^ (ey - ex))%Z.
Proof.
  intros Hx Hy Hlt.
  apply bounded_facts in Hx as (Hex & Hdx & _).
  apply bounded_facts in Hy as (Hey & _ & Hdy).
  rewrite <- Z.lt_succ_r in Hdx.
  specialize (Hdy ltac:(lia)).
  pose proof (digits2_pos_bounds mx) as [_ Hmx].
  pose proof (digits2_pos_bounds my) as [Hmy _].
  rewrite Hdy in Hmy.
  assert (2 ^ Zpos (digits2_pos mx) <= 2 ^ 53)%Z as Hpx
    by (apply Z.pow_le_mono_r; lia).
  assert (2 ^ 1 <= 2 ^ (ey - ex))%Z as Hpe by (apply Z.pow_le_mono_r; lia).
  change (2 ^ 1)%Z with 2%Z in Hpe.
  change (2 ^ (53 - 1))%Z with 4503599627370496%Z in Hmy.
  change (2 ^ 53)%Z with 9007199254740992%Z in Hpx.
  nia.
Qed.

(** Comparing two valid finite numbers of the same sign is comparing their
    mantissas brought to the smaller exponent. *)
Lemma aligned_compare mx ex my ey :
  bounded prec emax mx ex = true -> bounded prec emax my ey = true ->
  match (ex ?= ey)%Z with
  | Lt => Lt
  | Gt => Gt
  | Eq => Pos.compare_cont Eq mx my
  end
  = (Zpos (fst (shl_align mx ex (Z.min ey ex)))
     ?= Zpos (fst (shl_align my ey (Z.min ey ex))))%Z.
Proof.
  intros Hx Hy. rewrite !shl_align_value by lia.
  destruct (Z.compare_spec ex ey) as [-> | Hlt | Hgt].
  - rewrite Z.min_id, Z.sub_diag, Z.pow_0_r, !Z.mul_1_r. reflexivity.
  - rewrite Z.min_r by lia. rewrite Z.sub_diag, Z.pow_0_r, Z.mul_1_r.
    symmetry. apply Z.compare_lt_iff.
    apply mantissa_lt_of_exponent_lt; assumption.
  - rewrite Z.min_l by lia. rewrite Z.sub_diag, Z.pow_0_r, Z.mul_1_r.
    symmetry. apply Z.compare_gt_iff.
    apply mantissa_lt_of_exponent_lt; assumption.
Qed.

Lemma SFltb_finite sx mx ex sy my ey :
  bounded prec emax mx ex = true -> bounded prec emax my ey = true ->
  SFltb (S754_finite sx mx ex) (S754_finite sy my ey)
  = (cond_Zopp sx (Zpos (fst (shl_align mx ex (Z.min ey ex))))
     <? cond_Zopp sy (Zpos (fst (shl_align my ey (Z.min ey ex)))))%Z.
Proof.
  intros Hx Hy. unfold SFltb, SFcompare.
  pose proof (aligned_compare mx ex my ey Hx Hy) as Hc.
  set (X := Zpos (fst (shl_align mx ex (Z.min ey ex)))) in *.
  set (Y := Zpos (fst (shl_align my ey (Z.min ey ex)))) in *.
  assert (0 < X)%Z by (unfold X; lia). assert (0 < Y)%Z by (unfold Y; lia).
  clearbody X Y. unfold Z.ltb.
  destruct sx, sy; simpl.
  - rewrite Z.compare_opp, (Z.compare_antisym X Y), <- Hc.
    destruct (ex ?= ey)%Z; reflexivity.
  - destruct (Z.compare_spec (- X) Y); try reflexivity; lia.
  - destruct (Z.compare_spec X (- Y)); try reflexivity; lia.
  - rewrite <- Hc. reflexivity.
Qed.

(** Rounding a positive integer at an exponent not below [emin] never
    gives zero. *)
Lemma shr_1_m r : (0 <= shr_m r)%Z -> shr_m (shr_1 r) = (shr_m r / 2)%Z.
Proof.
  destruct r as [m r s]. simpl. intros Hm. rewrite <- Z.div2_div.
  destruct m as [| [p | p |] | p]; try reflexivity. lia.
Qed.

Lemma iter_pos_shr_1 q :
  forall r, (0 <= shr_m r)%Z ->
    shr_m (SpecFloat.iter_pos shr_1 q r) = (shr_m r / 2 ^ Zpos q)%Z.
Proof.
  induction q as [q IH | q IH |]; intros r Hr; cbn [SpecFloat.iter_pos].
  - assert (0 <= shr_m (shr_1 r))%Z as H1
      by (rewrite shr_1_m by assumption; apply Z.div_pos; lia).
    assert (0 <= shr_m (SpecFloat.iter_pos shr_1 q (shr_1 r)))%Z as H2
      by (rewrite IH by assumption; apply Z.div_pos; lia).
    rewrite IH, IH, shr_1_m by assumption.
    rewrite !Z.div_div by lia. f_equal.
    replace (Zpos q~1) with (Zpos q + Zpos q + 1)%Z by lia.
    rewrite !Z.pow_add_r, Z.pow_1_r by lia. ring.
  - assert (0 <= shr_m (SpecFloat.iter_pos shr_1 q r))%Z as H2
      by (rewrite IH by assumption; apply Z.div_pos; lia).
    rewrite IH, IH by assumption.
    rewrite !Z.div_div by lia. f_equal.
    replace (Zpos q~0) with (Zpos q + Zpos q)%Z by lia.
    rewrite !Z.pow_add_r by lia. ring.
  - rewrite Z.pow_1_r. apply shr_1_m. assumption.
Qed.

Lemma shr_record_of_loc_m m l : shr_m (shr_record_of_loc m l) = m.
Proof. destruct l as [| []]; reflexivity. Qed.

Lemma shr_fexp_pos m e l :
  (0 < m)%Z -> (-1074 <= e)%Z ->
  (0 < shr_m (fst (shr_fexp prec emax m e l)))%Z
  /\ (-1074 <= snd (shr_fexp prec emax m e l))%Z.
Proof.
  intros Hm He. unfold shr_fexp, shr.
  destruct m as [| p | p]; [lia | | lia]. cbn [Zdigits2].
  pose proof (digits2_pos_bounds p) as [Hlo _].
  set (d := Zpos (digits2_pos p)) in *.
  assert (fexp prec emax (d + e) - e = Z.max (d - 53) (-1074 - e))%Z as Hn
    by (unfold fexp, emin, prec, emax; lia).
  rewrite Hn.
  destruct (Z.max (d - 53) (-1074 - e)) as [| n | n] eqn:En; cbn [fst snd];
    rewrite ?shr_record_of_loc_m; try (split; lia).
  rewrite iter_pos_shr_1 by (rewrite shr_record_of_loc_m; lia).
  rewrite shr_record_of_loc_m. split; [| lia].
  apply Z.div_str_pos. split; [apply Z.pow_pos_nonneg; lia |].
  apply Z.le_trans with (2 ^ (d - 1))%Z; [| assumption].
  apply Z.pow_le_mono_r; lia.
Qed.

Lemma round_nearest_even_ge m l : (m <= round_nearest_even m l)%Z.
Proof.
  destruct l as [| []]; simpl; try lia.
  destruct (Z.even m); lia.
Qed.

Lemma binary_round_aux_pos sx m e l :
  (0 < m)%Z -> (-1074 <= e)%Z ->
  (exists m' e', binary_round_aux prec emax sx m e l = S754_finite sx m' e')
  \/ binary_round_aux prec emax sx m e l = S754_infinity sx.
Proof.
  intros Hm He. unfold binary_round_aux.
  pose proof (shr_fexp_pos m e l Hm He) as [H1 H2].
  destruct (shr_fexp prec emax m e l) as [mrs' e']. cbn [fst snd] in H1, H2.
  pose proof (round_nearest_even_ge (shr_m mrs') (loc_of_shr_record mrs')) as Hr.
  pose proof (shr_fexp_pos _ e' loc_Exact (Z.lt_le_trans _ _ _ H1 Hr) H2) as [H3 _].
  destruct (shr_fexp prec emax _ e' loc_Exact) as [mrs'' e'']. cbn [fst] in H3.
  destruct (shr_m mrs'') as [| p | p]; [lia | | lia].
  destruct (e'' <=? emax - prec)%Z; eauto.
Qed.

Lemma binary_round_aux_shape sx m e l :
  match binary_round_aux prec emax sx m e l with
  | S754_zero s | S754_infinity s | S754_finite s _ _ => s = sx
  | S754_nan => True
  end.
Proof.
  unfold binary_round_aux.
  destruct (shr_fexp prec emax m e l) as [mrs' e'].
  destruct (shr_fexp prec emax _ e' loc_Exact) as [mrs'' e''].
  destruct (shr_m mrs''); try exact I; try reflexivity.
  destruct (e'' <=? emax - prec)%Z; reflexivity.
Qed.

Lemma binary_round_exponent m e :
  (-1074 <= e)%Z ->
  (-1074 <= snd (shl_align m e (fexp prec emax (Zpos (digits2_pos m) + e))))%Z.
Proof.
  intros He. unfold shl_align.
  destruct (fexp prec emax (Zpos (digits2_pos m) + e) - e)%Z eqn:E; cbn [snd];
    try assumption.
  unfold fexp, emin, prec, emax. lia.
Qed.

(** The sign of a rounded integer is the integer's sign. *)
Lemma binary_normalize_positive z e :
  (-1074 <= e)%Z ->
  SFltb (S754_zero false) (binary_normalize prec emax z e false) = (0 <? z)%Z.
Proof.
  intros He. unfold binary_normalize, binary_round.
  destruct z as [| p | p]; [reflexivity | |].
  - pose proof (binary_round_exponent p e He) as He'.
    destruct (shl_align p e _) as [mz ez]. cbn [snd] in He'.
    destruct (binary_round_aux_pos false (Zpos mz) ez loc_Exact) as [(m' & e' & ->) | ->];
      try lia; reflexivity.
  - destruct (shl_align p e _) as [mz ez].
    pose proof (binary_round_aux_shape true (Zpos mz) ez loc_Exact) as Hs.
    destruct (binary_round_aux prec emax true (Zpos mz) ez loc_Exact);
      try subst; reflexivity.
Qed.

(** [0 < y - x] exactly when [x < y]: the comparator [b.score - a.score]
    is positive exactly when [a] scores strictly below [b]. *)
Lemma SFsub_positive x y :
  SpecFloat.valid_binary prec emax x = true ->
  SpecFloat.valid_binary prec emax y = true ->
  SFltb (S754_zero false) (SF64sub y x) = SFltb x y.
Proof.
  intros Hx Hy. unfold SF64sub, SFsub.
  destruct y as [sy | sy | | sy my ey], x as [sx | sx | | sx mx ex];
    try reflexivity;
    try (destruct sx; try destruct sy; reflexivity);
    try (destruct sy; try destruct sx; reflexivity).
  cbn [SpecFloat.valid_binary] in Hx, Hy.
  rewrite binary_normalize_positive
    by (apply bounded_facts in Hx; apply bounded_facts in Hy; lia).
  rewrite (SFltb_finite sx mx ex sy my ey Hx Hy).
  set (X := cond_Zopp sx _). set (Y := cond_Zopp sy _). unfold Z.ltb.
  destruct (Z.compare_spec 0 (Y - X)), (Z.compare_spec X Y);
    try reflexivity; lia.
Qed.

Theorem sub_positive x y : (0 <? y - x)%float = (x <? y)%float.
Proof.
  rewrite !FloatAxioms.ltb_spec, FloatAxioms.sub_spec.
  apply (SFsub_positive (Prim2SF x) (Prim2SF y)); apply Prim2SF_valid.
Qed.

(** *** The order as an order on integers *)

(** A key that orders the valid numbers that are not NaN as the integers
    are ordered. *)
Definition SFkey (x : spec_float) : Z :=
  match x with
  | S754_zero _ | S754_nan => 0
  | S754_infinity s => cond_Zopp s 18446744073709551616
  | S754_finite s m e => cond_Zopp s ((e + 1075) * 9007199254740992 + Zpos m)
  end.

Lemma bounded_key m e :
  bounded prec emax m e = true ->
  (0 < (e + 1075) * 9007199254740992 + Zpos m < 18446744073709551616)%Z
  /\ (-1074 <= e)%Z /\ (Zpos m < 9007199254740992)%Z.
Proof.
  intros H. apply bounded_facts in H as (He & Hd & _).
  pose proof (digits2_pos_bounds m) as [_ Hm].
  assert (2 ^ Zpos (digits2_pos m) <= 2 ^ 53)%Z as Hp
    by (apply Z.pow_le_mono_r; lia).
  change (2 ^ 53)%Z with 9007199254740992%Z in Hp. lia.
Qed.

Lemma SFcompare_key x y :
  SpecFloat.valid_binary prec emax x = true ->
  SpecFloat.valid_binary prec emax y = true ->
  x <> S754_nan -> y <> S754_nan ->
  SFcompare x y = Some (SFkey x ?= SFkey y)%Z.
Proof.
  intros Hx Hy Nx Ny.
  destruct x as [sx | sx | | sx mx ex], y as [sy | sy | | sy my ey];
    try congruence; cbn [SpecFloat.valid_binary] in Hx, Hy;
    try apply bounded_key in Hx as (Hkx & Hex & Hmx);
    try apply bounded_key in Hy as (Hky & Hey & Hmy);
    cbn [SFcompare SFkey]; f_equal; symmetry.
  all: destruct sx, sy; cbn [cond_Zopp];
    try first [ reflexivity | apply Z.compare_lt_iff; lia | apply Z.compare_gt_iff; lia ].
  - rewrite Z.compare_opp.
    destruct (Z.compare_spec ex ey) as [-> | Hlt | Hgt].
    + rewrite Z.add_compare_mono_l, (Pos.compare_cont_antisym mx my Eq).
      reflexivity.
    + apply Z.compare_gt_iff. lia.
    + apply Z.compare_lt_iff. lia.
  - destruct (Z.compare_spec ex ey) as [-> | Hlt | Hgt].
    + rewrite Z.add_compare_mono_l. reflexivity.
    + apply Z.compare_lt_iff. lia.
    + apply Z.compare_gt_iff. lia.
Qed.

Lemma SFleb_not_nan x y :
  SFleb x y = true -> x <> S754_nan /\ y <> S754_nan.
Proof.
  unfold SFleb. destruct (SFcompare x y) eqn:E; [| discriminate].
  intros _. split; intros ->; [| destruct x]; discriminate.
Qed.

Lemma leb_key x y :
  (x <=? y)%float = true ->
  (SFkey (Prim2SF x) <= SFkey (Prim2SF y))%Z
  /\ is_nan x = false /\ is_nan y = false.
Proof.
  rewrite FloatAxioms.leb_spec. intros H.
  destruct (SFleb_not_nan _ _ H) as [Nx Ny].
  rewrite !is_nan_false. split; [| by split].
  unfold SFleb in H.
  rewrite (SFcompare_key _ _ (Prim2SF_valid x) (Prim2SF_valid y) Nx Ny) in H.
  destruct (Z.compare_spec (SFkey (Prim2SF x)) (SFkey (Prim2SF y))); [lia | lia | done].
Qed.

Lemma key_leb x y :
  is_nan x = false -> is_nan y = false ->
  (SFkey (Prim2SF x) <= SFkey (Prim2SF y))%Z -> (x <=? y)%float = true.
Proof.
  rewrite !is_nan_false, FloatAxioms.leb_spec. intros Nx Ny H. unfold SFleb.
  rewrite (SFcompare_key _ _ (Prim2SF_valid x) (Prim2SF_valid y) Nx Ny).
  destruct (Z.compare_spec (SFkey (Prim2SF x)) (SFkey (Prim2SF y))); [done | done | lia].
Qed.

Lemma leb_trans x y z :
  (x <=? y)%float = true -> (y <=? z)%float = true -> (x <=? z)%float = true.
Proof.
  intros Hxy Hyz.
  apply leb_key in Hxy as (Hxy & Nx & _). apply leb_key in Hyz as (Hyz & _ & Nz).
  apply key_leb; [done | done | lia].
Qed.






(** *** Zeros and NaN under the arithmetic of cosine similarity *)

Definition SFisZero (x : spec_float) : Prop :=
  match x with S754_zero _ => True | _ => False end.

Definition SFzeroOrNaN (x : spec_float) : Prop :=
  match x with S754_zero _ | S754_nan => True | _ => False end.

Lemma is_zero_SF x : is_zero x = true -> SFisZero (Prim2SF x).
Proof.
  unfold is_zero. rewrite FloatAxioms.eqb_spec.
  change (Prim2SF PrimFloat.zero) with (S754_zero false). unfold SFeqb.
  destruct (Prim2SF x) as [s | s | | s m e]; simpl; try done; destruct s; done.
Qed.

Lemma SFmul_zero_r x z : SFisZero z -> SFzeroOrNaN (SF64mul x z).
Proof. destruct z, x; simpl; done. Qed.

Lemma SFmul_zero_l x z : SFisZero z -> SFzeroOrNaN (SF64mul z x).
Proof. destruct z, x; simpl; done. Qed.

Lemma SFmul_zero_zero x z : SFisZero x -> SFisZero z -> SFisZero (SF64mul x z).
Proof. destruct z, x; simpl; done. Qed.

Lemma SFmul_nan_r x : SF64mul x S754_nan = S754_nan.
Proof. by destruct x. Qed.

Lemma SFadd_zeroOrNaN x y :
  SFzeroOrNaN x -> SFzeroOrNaN y -> SFzeroOrNaN (SF64add x y).
Proof. destruct x as [[] | | |], y as [[] | | |]; simpl; done. Qed.

Lemma SFadd_zero x y : SFisZero x -> SFisZero y -> SFisZero (SF64add x y).
Proof. destruct x as [[] | | |], y as [[] | | |]; simpl; done. Qed.

Lemma SFdiv_zeroOrNaN x y :
  SFzeroOrNaN x -> SFzeroOrNaN y -> SF64div x y = S754_nan.
Proof. destruct x, y; simpl; done. Qed.

Lemma SFsqrt_zero x : SFisZero x -> SFisZero (SF64sqrt x).
Proof. destruct x; simpl; done. Qed.

End FloatFacts.

(** ** Properties of the session store *)

Section SessionStoreFacts.
Import JS SessionStore.

Definition Exchange : Type := jsstring * jsstring * jsstring * jsstring.

(** The two turns of one exchange: the question and the reply, each with
    the time it was recorded at. *)
Definition exchangeTurns (e : Exchange) : list Message :=
  let '(q, tq, a, ta) := e in [mkMessage user q tq; mkMessage model a ta].

(** What the chat handler records for one exchange. *)
Definition recordExchange (sid : jsstring) (sessions : Sessions) (e : Exchange)
    : Sessions :=
  let '(q, tq, a, ta) := e in
  addMessage (addMessage sessions sid user q tq) sid model a ta.

Definition turnsOf (sessions : Sessions) (sid : jsstring) : list Message :=
  default [] (sessions !! sid).

Lemma sessionExists_true (sessions : Sessions) sid :
  sessionExists sessions sid = true <-> is_Some (sessions !! sid).
Proof. unfold sessionExists. apply bool_decide_eq_true. Qed.

Lemma sessionExists_false (sessions : Sessions) sid :
  sessionExists sessions sid = false <-> sessions !! sid = None.
Proof.
  unfold sessionExists. rewrite bool_decide_eq_false.
  rewrite <- eq_None_not_Some. done.
Qed.

Lemma addMessage_lookup (sessions : Sessions) sid r c t :
  addMessage sessions sid r c t
  = <[sid := turnsOf sessions sid ++ [mkMessage r c t]]> sessions.
Proof.
  unfold addMessage, turnsOf.
  destruct (sessionExists sessions sid) eqn:E.
  - apply sessionExists_true in E as [msgs E]. by rewrite E.
  - apply sessionExists_false in E. rewrite lookup_insert_eq, E. simpl.
    by rewrite insert_insert_eq.
Qed.

Lemma addMessage_turns (sessions : Sessions) sid r c t :
  turnsOf (addMessage sessions sid r c t) sid
  = turnsOf sessions sid ++ [mkMessage r c t].
Proof. rewrite addMessage_lookup. unfold turnsOf. by rewrite lookup_insert_eq. Qed.

Lemma addMessage_turns_ne (sessions : Sessions) sid sid' r c t :
  sid <> sid' ->
  turnsOf (addMessage sessions sid r c t) sid' = turnsOf sessions sid'.
Proof.
  intros Hne. rewrite addMessage_lookup. unfold turnsOf.
  by rewrite lookup_insert_ne.
Qed.

Lemma recordExchange_lookup (sessions : Sessions) sid e :
  recordExchange sid sessions e !! sid
  = Some (turnsOf sessions sid ++ exchangeTurns e).
Proof.
  destruct e as [[[q tq] a] ta]. unfold recordExchange, exchangeTurns.
  rewrite (addMessage_lookup (addMessage _ _ _ _ _)), lookup_insert_eq.
  rewrite addMessage_turns. by rewrite <- app_assoc.
Qed.

Lemma recordExchange_turns (sessions : Sessions) sid e :
  turnsOf (recordExchange sid sessions e) sid
  = turnsOf sessions sid ++ exchangeTurns e.
Proof. unfold turnsOf at 1. by rewrite recordExchange_lookup. Qed.

Lemma recordExchanges_turns (exchanges : list Exchange) (sessions : Sessions) sid :
  turnsOf (foldl (recordExchange sid) sessions exchanges) sid
  = turnsOf sessions sid ++ concat (map exchangeTurns exchanges).
Proof.
  revert sessions. induction exchanges as [| e es IH]; intros sessions.
  - simpl. by rewrite app_nil_r.
  - simpl. rewrite IH, recordExchange_turns. by rewrite <- app_assoc.
Qed.

Lemma getHistory_stored (sessions : Sessions) sid :
  getHistory sessions sid
  = drop (length (turnsOf sessions sid) - 10) (turnsOf sessions sid).
Proof.
  unfold getHistory, turnsOf. destruct (sessions !! sid) as [msgs |]; [| done].
  simpl. change (- (MAX_HISTORY_PAIRS * 2))%Z with (- Z.of_nat 10)%Z.
  apply sliceFrom_last. lia.
Qed.

Lemma exchangeTurns_length e : length (exchangeTurns e) = 2.
Proof. by destruct e as [[[? ?] ?] ?]. Qed.

Lemma concat_exchangeTurns_length (es : list Exchange) :
  length (concat (map exchangeTurns es)) = 2 * length es.
Proof.
  induction es as [| e es IH]; [done |].
  simpl. rewrite length_app, exchangeTurns_length, IH. lia.
Qed.

Lemma drop_concat_exchangeTurns (n : nat) (es : list Exchange) :
  drop (2 * n) (concat (map exchangeTurns es))
  = concat (map exchangeTurns (drop n es)).
Proof.
  revert es. induction n as [| n IH]; intros es; [done |].
  destruct es as [| e es]; [done |].
  replace (2 * S n) with (2 + 2 * n) by lia.
  destruct e as [[[q tq] a] ta]. simpl. apply IH.
Qed.

(** C7: after a session has recorded [exchanges], every turn is still in
    storage, and getHistory returns the last ten stored turns (all of them
    when there are fewer) in the order they were recorded.  With five or
    more exchanges these are exactly the turns of the last five exchanges;
    after seven exchanges, the ten turns of exchanges 3 to 7. *)
Theorem getHistory_last_five_pairs (sessions : Sessions) (sid : jsstring)
    (exchanges : list Exchange) :
  let sessions' := foldl (recordExchange sid) sessions exchanges in
  let stored := turnsOf sessions sid ++ concat (map exchangeTurns exchanges) in
  turnsOf sessions' sid = stored
  /\ getHistory sessions' sid = drop (length stored - 10) stored
  /\ length (getHistory sessions' sid) = Nat.min (length stored) 10
  /\ (5 <= length exchanges ->
      getHistory sessions' sid
      = concat (map exchangeTurns (drop (length exchanges - 5) exchanges)))
  /\ (length exchanges = 7 ->
      getHistory sessions' sid = concat (map exchangeTurns (drop 2 exchanges))
      /\ length (getHistory sessions' sid) = 10).
Proof.
  intros sessions' stored.
  assert (turnsOf sessions' sid = stored) as Hst
    by apply recordExchanges_turns.
  assert (getHistory sessions' sid = drop (length stored - 10) stored) as Hh
    by (by rewrite getHistory_stored, Hst).
  assert (5 <= length exchanges ->
          getHistory sessions' sid
          = concat (map exchangeTurns (drop (length exchanges - 5) exchanges))) as H5.
  { intros Hn. rewrite Hh. unfold stored.
    rewrite length_app, concat_exchangeTurns_length.
    rewrite drop_app_ge by lia.
    replace (length (turnsOf sessions sid) + 2 * length exchanges - 10
             - length (turnsOf sessions sid))
      with (2 * (length exchanges - 5)) by lia.
    apply drop_concat_exchangeTurns. }
  split; [exact Hst |]. split; [exact Hh |]. split; [| split; [exact H5 |]].
  - rewrite Hh, length_drop. lia.
  - intros H7. rewrite H5 by lia. rewrite H7. split; [done |].
    rewrite concat_exchangeTurns_length, length_drop. lia.
Qed.

Definition sevenExchanges : list Exchange :=
  map (fun n => (lit "q" ++ decimal n, lit "t", lit "a" ++ decimal n, lit "t"))
      [1; 2; 3; 4; 5; 6; 7]%N.

Lemma getHistory_last_five_pairs_witness :
  let sessions' := foldl (recordExchange (lit "s")) (createSession ∅ (lit "s")) sevenExchanges in
  length (turnsOf sessions' (lit "s")) = 14
  /\ map content (getHistory sessions' (lit "s"))
     = map lit ["q3"; "a3"; "q4"; "a4"; "q5"; "a5"; "q6"; "a6"; "q7"; "a7"]%string.
Proof.
  intros sessions'.
  destruct (getHistory_last_five_pairs (createSession ∅ (lit "s")) (lit "s") sevenExchanges)
    as (Hst & _ & _ & _ & H7).
  destruct H7 as [Hh _]; [reflexivity |].
  fold sessions' in Hst, Hh. rewrite Hst, Hh.
  split; vm_compute; reflexivity.
Defined.

(** C10: resetting (clearSession) a session id that is not in the store
    creates a new empty session: afterwards the id exists, its history is
    empty and the session count is one more than before. *)
Theorem clearSession_absent_creates (sessions : Sessions) (id : jsstring) :
  sessionExists sessions id = false ->
  sessionExists (clearSession sessions id) id = true
  /\ getSessionCount (clearSession sessions id) = S (getSessionCount sessions)
  /\ clearSession sessions id !! id = Some [].
Proof.
  unfold sessionExists, clearSession, getSessionCount.
  intros Habs. apply bool_decide_eq_false in Habs.
  assert (sessions !! id = None) as Hnone.
  { destruct (sessions !! id) eqn:E; [exfalso; apply Habs; eauto | done]. }
  split; [| split].
  - apply bool_decide_eq_true. rewrite lookup_insert_eq. eauto.
  - by apply map_size_insert_None.
  - apply lookup_insert_eq.
Qed.

Lemma clearSession_absent_creates_witness :
  sessionExists (∅ : Sessions) (lit "s1") = false
  /\ sessionExists (clearSession ∅ (lit "s1")) (lit "s1") = true
  /\ getSessionCount (clearSession ∅ (lit "s1")) = 1.
Proof.
  split; [vm_compute; reflexivity |].
  destruct (clearSession_absent_creates ∅ (lit "s1")) as (He & Hc & _);
    [vm_compute; reflexivity |].
  split; [exact He | exact Hc].
Defined.

End SessionStoreFacts.


(** ** Properties of the chunker *)

Section IngestFacts.
Import JS Ingest.

Lemma windowLoop_acc fuel text size overlap start acc :
  windowLoop fuel text size overlap start acc
  = (fun ws => acc ++ ws) <$> windowLoop fuel text size overlap start [].
Proof.
  revert start acc. induction fuel as [| fuel IH]; intros start acc; [done |].
  simpl. destruct (start <? Z.of_nat (length text))%Z; simpl.
  - destruct (_ =? Z.of_nat (length text))%Z; [done |].
    rewrite IH. rewrite (IH _ [_]).
    destruct (windowLoop fuel text size overlap _ []) as [ws |]; simpl; [| done].
    by rewrite <- app_assoc.
  - by rewrite app_nil_r.
Qed.

(** Each chunk is the trimmed window of the same iteration. *)
Lemma chunkLoop_windowLoop fuel text size overlap start windows :
  chunkLoop fuel text size overlap start (map trim windows)
  = (fun ws => Normal (map trim ws))
      <$> windowLoop fuel text size overlap start windows.
Proof.
  revert start windows. induction fuel as [| fuel IH]; intros start windows; [done |].
  simpl. destruct (start <? Z.of_nat (length text))%Z; [| done].
  destruct (_ =? Z.of_nat (length text))%Z.
  - simpl. by rewrite map_app.
  - rewrite <- IH. by rewrite map_app.
Qed.

(** Once the loop has ended, more fuel changes nothing. *)
Lemma chunkLoop_fuel_mono fuel text size overlap : forall start chunks r fuel',
  chunkLoop fuel text size overlap start chunks = Some r ->
  fuel <= fuel' ->
  chunkLoop fuel' text size overlap start chunks = Some r.
Proof.
  induction fuel as [| fuel IH]; intros start chunks r fuel' Hrun Hle; [done |].
  destruct fuel' as [| fuel']; [lia |].
  simpl in *. destruct (start <? Z.of_nat (length text))%Z; [| done].
  destruct (_ =? Z.of_nat (length text))%Z; [done |].
  apply (IH _ _ _ fuel' Hrun). lia.
Qed.

Lemma chunkLoop_no_throw fuel text size overlap start chunks message :
  chunkLoop fuel text size overlap start chunks <> Some (Throw message).
Proof.
  revert start chunks. induction fuel as [| fuel IH]; intros start chunks; [done |].
  simpl. destruct (start <? Z.of_nat (length text))%Z; [| done].
  destruct (_ =? Z.of_nat (length text))%Z; [done | apply IH].
Qed.

(** With [size <= overlap] the start offset never moves forward, so a text
    longer than one window keeps the loop running. *)
Lemma chunkLoop_stuck text size overlap :
  (size <= overlap)%Z -> text <> [] -> (size < Z.of_nat (length text))%Z ->
  forall fuel start chunks,
    (start <= 0)%Z -> chunkLoop fuel text size overlap start chunks = None.
Proof.
  intros Hso Hne Hlen. induction fuel as [| fuel IH]; intros start chunks Hstart; [done |].
  assert (0 < length text) by (destruct text; [done | simpl; lia]).
  simpl. destruct (Z.ltb_spec start (Z.of_nat (length text))); [| lia].
  rewrite Z.min_l by lia.
  destruct (Z.eqb_spec (start + size) (Z.of_nat (length text))); [lia |].
  apply IH. lia.
Qed.

(** The windows after the first: from a start offset whose overlap region
    lies inside the text, the loop ends, the windows minus their overlap
    regions give the text from [start + overlap] on, and the last window
    runs to the end of the text. *)
Lemma windowLoop_rest text (size overlap : nat) :
  0 < overlap < size ->
  forall fuel start,
    start + overlap < length text ->
    length text - start < fuel ->
    exists ws w,
      windowLoop fuel text (Z.of_nat size) (Z.of_nat overlap) (Z.of_nat start) []
      = Some (ws ++ [w])
      /\ concat (map (fun p => sliceFrom p (Z.of_nat overlap)) (ws ++ [w]))
         = drop (start + overlap) text
      /\ exists st, st < length text /\ w = drop st text.
Proof.
  intros Hpar. induction fuel as [| fuel IH]; intros start Hin Hfuel; [lia |].
  simpl. destruct (Z.ltb_spec (Z.of_nat start) (Z.of_nat (length text))); [| lia].
  destruct (Nat.le_gt_cases (length text) (start + size)) as [Hlast | Hmore].
  - rewrite Z.min_r by lia. rewrite Z.eqb_refl.
    exists [], (drop start text). rewrite slice_nat by lia.
    rewrite take_ge by (rewrite length_drop; lia).
    split; [done |]. split; [| exists start; split; [lia | done]].
    simpl. rewrite sliceFrom_nat, app_nil_r. by rewrite drop_drop.
  - rewrite Z.min_l by lia.
    destruct (Z.eqb_spec (Z.of_nat start + Z.of_nat size) (Z.of_nat (length text))); [lia |].
    replace (Z.of_nat start + (Z.of_nat size - Z.of_nat overlap))%Z
      with (Z.of_nat (start + size - overlap)) by lia.
    replace (Z.of_nat start + Z.of_nat size)%Z with (Z.of_nat (start + size)) by lia.
    rewrite slice_nat by lia.
    destruct (IH (start + size - overlap)) as (ws & w & Hrun & Hcat & Hend); [lia | lia |].
    rewrite windowLoop_acc, Hrun. simpl.
    exists (take (start + size - start) (drop start text) :: ws), w.
    split; [done |]. split; [| exact Hend].
    simpl. rewrite Hcat, sliceFrom_nat.
    replace (start + size - start) with size by lia.
    replace (start + size - overlap + overlap) with (start + size) by lia.
    rewrite skipn_firstn_comm, drop_drop.
    rewrite <- (take_drop (size - overlap) (drop (start + overlap) text)) at 2.
    rewrite drop_drop. do 2 f_equal. lia.
Qed.

Lemma chunkText_of_windows fuel text size overlap windows :
  chunkWindows fuel text size overlap = Some windows ->
  chunkText fuel text size overlap = Some (Normal (map trim windows)).
Proof.
  intros Hw. unfold chunkText, chunkWindows in *.
  change (@nil jsstring) with (map trim []) at 1.
  by rewrite chunkLoop_windowLoop, Hw.
Qed.

Lemma chunkWindows_cover (text : jsstring) (size overlap : nat) :
  0 < overlap < size ->
  exists windows,
    chunkWindows (S (length text)) text (Z.of_nat size) (Z.of_nat overlap)
    = Some windows
    /\ concatDedup (Z.of_nat overlap) windows = text
    /\ (text <> [] ->
        exists st, st < length text /\ last windows = Some (drop st text)).
Proof.
  intros Hnat. destruct (decide (text = [])) as [-> | Hne].
  { exists []. done. }
  assert (0 < length text) as Hpos by (destruct text; [done | simpl; lia]).
  unfold chunkWindows. cbn [windowLoop].
  destruct (Z.ltb_spec 0 (Z.of_nat (length text))); [| lia].
  change 0%Z with (Z.of_nat 0).
  destruct (Nat.le_gt_cases (length text) size) as [Hone | Hmany].
  - rewrite Z.min_r by lia. rewrite Z.eqb_refl.
    rewrite slice_nat by lia. rewrite drop_0, Nat.sub_0_r, take_ge by lia.
    exists [text]. split; [done |].
    split; [simpl; by rewrite app_nil_r |].
    intros _. exists 0. split; [lia | done].
  - rewrite Z.min_l by lia.
    destruct (Z.eqb_spec (Z.of_nat 0 + Z.of_nat size) (Z.of_nat (length text))); [lia |].
    replace (Z.of_nat 0 + (Z.of_nat size - Z.of_nat overlap))%Z
      with (Z.of_nat (size - overlap)) by lia.
    replace (Z.of_nat 0 + Z.of_nat size)%Z with (Z.of_nat size) by lia.
    rewrite slice_nat by lia. rewrite drop_0, Nat.sub_0_r.
    destruct (windowLoop_rest text size overlap Hnat (length text) (size - overlap))
      as (ws & w & Hrun & Hcat & Hend); [lia | lia |].
    rewrite windowLoop_acc, Hrun. simpl.
    exists (take size text :: ws ++ [w]).
    split; [done |]. split.
    + simpl. rewrite Hcat.
      replace (size - overlap + overlap) with size by lia. apply take_drop.
    + intros _. destruct Hend as (st & Hst & ->). exists st. split; [done |].
      change (take size text :: ws ++ [drop st text])
        with ((take size text :: ws) ++ [drop st text]).
      apply last_snoc.
Qed.

(** C4 (as amended): for [0 < overlap < size] the loop of chunkText ends
    within [length text + 1] iterations; its windows [text.slice(start, end)],
    joined with the first [overlap] characters of every window after the
    first removed, give back the text exactly; the last window ends at the
    end of the text; and the chunks returned are these windows, trimmed. *)
Theorem chunkText_windows_cover (text : jsstring) (size overlap : Z) :
  (0 < overlap < size)%Z ->
  exists windows,
    chunkWindows (S (length text)) text size overlap = Some windows
    /\ chunkText (S (length text)) text size overlap
       = Some (Normal (map trim windows))
    /\ concatDedup overlap windows = text
    /\ (text <> [] ->
        exists st, st < length text /\ last windows = Some (drop st text)).
Proof.
  intros Hpar.
  destruct (chunkWindows_cover text (Z.to_nat size) (Z.to_nat overlap))
    as (windows & Hrun & Hcat & Hend); [lia |].
  rewrite !Z2Nat.id in * by lia.
  exists windows. split; [exact Hrun |].
  split; [by apply chunkText_of_windows |]. by split.
Qed.

Lemma chunkText_windows_cover_witness :
  exists windows,
    chunkText 6 (lit "ab cd") 3 1 = Some (Normal (map trim windows))
    /\ concatDedup 1 windows = lit "ab cd".
Proof.
  destruct (chunkText_windows_cover (lit "ab cd") 3 1) as (ws & _ & Hc & Hcat & _);
    [lia |].
  exists ws. split; [exact Hc | exact Hcat].
Defined.

(** C4 as stated fails on the chunks themselves: trimming removes the
    white space at a window's edge, so the space of ["ab cd"] is in no chunk
    and the de-duplicated concatenation is not the text; and with the text
    ["ab "] the last chunk stops before the end of the document. *)
Lemma chunkText_chunks_lose_whitespace :
  chunkText 6 (lit "ab cd") 3 1 = Some (Normal [lit "ab"; lit "cd"])
  /\ concatDedup 1 [lit "ab"; lit "cd"] = lit "abd"
  /\ lit "abd" <> lit "ab cd"
  /\ chunkText 4 (lit "ab ") 3 1 = Some (Normal [lit "ab"]).
Proof. repeat split; try (vm_compute; reflexivity). discriminate. Qed.

(** C3 (as amended): with [size <= overlap] chunkText raises no error.  It
    returns no chunk for the empty text and the whole trimmed text as one
    chunk when the text fits in one window; for a longer text the loop never
    ends (it keeps appending chunks; the runtime running out of memory is
    outside the model). *)
Theorem chunkText_degenerate (text : jsstring) (size overlap : Z) :
  (size <= overlap)%Z ->
  (forall fuel message, chunkText fuel text size overlap <> Some (Throw message))
  /\ (text = [] ->
      forall fuel, chunkText (S fuel) text size overlap = Some (Normal []))
  /\ (text <> [] -> (Z.of_nat (length text) <= size)%Z ->
      forall fuel, chunkText (S fuel) text size overlap = Some (Normal [trim text]))
  /\ (text <> [] -> (size < Z.of_nat (length text))%Z ->
      forall fuel, chunkText fuel text size overlap = None).
Proof.
  intros Hso. split; [| split; [| split]].
  - intros fuel message. apply chunkLoop_no_throw.
  - intros -> fuel. done.
  - intros Hne Hfit fuel. unfold chunkText. cbn [chunkLoop].
    assert (0 < length text) by (destruct text; [done | simpl; lia]).
    destruct (Z.ltb_spec 0 (Z.of_nat (length text))); [| lia].
    rewrite Z.min_r by lia. rewrite Z.eqb_refl.
    change 0%Z with (Z.of_nat 0). rewrite slice_nat by lia.
    by rewrite drop_0, Nat.sub_0_r, take_ge by lia.
  - intros Hne Hlong fuel. by apply chunkLoop_stuck.
Qed.

Lemma chunkText_degenerate_witness :
  (forall fuel, chunkText fuel (lit "abc") 2 2 = None)
  /\ (forall fuel, chunkText (S fuel) (lit "ab") 2 2 = Some (Normal [lit "ab"])).
Proof.
  destruct (chunkText_degenerate (lit "abc") 2 2) as (_ & _ & _ & Hloop); [lia |].
  destruct (chunkText_degenerate (lit "ab") 2 2) as (_ & _ & Hone & _); [lia |].
  split.
  - apply Hloop; [discriminate | simpl; lia].
  - apply Hone; [discriminate | simpl; lia].
Defined.

(** C3 as stated fails: with [size = overlap = 2] the text ["ab"] is chunked
    and returned normally, with no configuration error. *)
Lemma chunkText_degenerate_returns :
  chunkText 1 (lit "ab") 2 2 = Some (Normal [lit "ab"])
  /\ chunkText 1000 (lit "abc") 2 2 = None.
Proof. split; vm_compute; reflexivity. Qed.

End IngestFacts.

(** ** Properties of [Array.prototype.sort] with a descending score comparator *)

Section SortFacts.
Import JS.
Context {A : Type} (key : A -> float).

(** [a] may stand before [b]: [b] does not score above [a]. *)
Definition descending (a b : A) : Prop := (key b <=? key a)%float = true.

Definition keyed (a : A) : Prop := is_nan (key a) = false.

Lemma sortInsert_perm x l :
  sortInsert (fun a b => key b - key a)%float x l ≡ₚ x :: l.
Proof.
  induction l as [| y l IH]; simpl; [done |].
  destruct (0 <? key y - key x)%float; [| done].
  rewrite IH. apply perm_swap.
Qed.

Lemma sort_perm l : sort (fun a b => key b - key a)%float l ≡ₚ l.
Proof.
  induction l as [| x l IH]; simpl; [done |].
  by rewrite sortInsert_perm, IH.
Qed.

Lemma sortInsert_sorted x l :
  keyed x -> Forall keyed l ->
  StronglySorted descending l ->
  StronglySorted descending (sortInsert (fun a b => key b - key a)%float x l).
Proof.
  intros Nx. induction l as [| y l IH]; intros Nl Hs; simpl.
  - by repeat constructor.
  - apply Forall_cons in Nl as [Ny Nl].
    apply StronglySorted_inv in Hs as [Hs Hy].
    rewrite sub_positive. destruct (key x <? key y)%float eqn:E.
    + constructor; [by apply IH |].
      rewrite sortInsert_perm. constructor; [| done].
      by apply ltb_leb.
    + assert (descending x y) as Hxy by (by apply ltb_false_leb).
      constructor; [by constructor |].
      constructor; [done |].
      eapply Forall_impl; [exact Hy |].
      intros z Hz. unfold descending in *. by eapply leb_trans.
Qed.

Lemma sort_sorted l :
  Forall keyed l ->
  StronglySorted descending (sort (fun a b => key b - key a)%float l).
Proof.
  induction l as [| x l IH]; intros Nl; simpl; [constructor |].
  apply Forall_cons in Nl as [Nx Nl].
  apply sortInsert_sorted; [done | by rewrite sort_perm | by apply IH].
Qed.





End SortFacts.

(** ** Properties of the similarity ranker *)

Section VectorMathFacts.
Import JS VectorMath.

(** *** Maps that may throw *)

Lemma mapThrowing_Normal {A B} (f : A -> Completion B) l : forall ys,
  mapThrowing f l = Normal ys <-> Forall2 (fun x y => f x = Normal y) l ys.
Proof.
  induction l as [| x l IH]; intros ys; simpl.
  - split; [intros [= <-]; constructor | intros H; by inversion H].
  - destruct (f x) as [y | e] eqn:Ex.
    + destruct (mapThrowing f l) as [ys' | e] eqn:El.
      * split.
        -- intros [= <-]. constructor; [done | by apply IH].
        -- intros H. inversion H as [| ? y' ? ys'' Hy Hrest]; subst.
           apply IH in Hrest. congruence.
      * split; [done |].
        intros H. inversion H as [| ? y' ? ys'' Hy Hrest]; subst.
        apply IH in Hrest. congruence.
    + split; [done |].
      intros H. inversion H as [| ? y' ? ys'' Hy Hrest]; subst. congruence.
Qed.

Lemma mapThrowing_Throw {A B} (f : A -> Completion B) l e :
  mapThrowing f l = Throw e -> exists x, x ∈ l /\ f x = Throw e.
Proof.
  induction l as [| x l IH]; simpl; [done |].
  destruct (f x) as [y | e'] eqn:Ex.
  - destruct (mapThrowing f l) as [ys | e'']; [done |].
    intros [= ->]. destruct IH as (x' & Hx' & Hf); [done |].
    exists x'. split; [by apply list_elem_of_further | done].
  - intros [= ->]. exists x. split; [apply list_elem_of_here | done].
Qed.

Lemma mapThrowing_throws {A B} (f : A -> Completion B) l x e :
  x ∈ l -> f x = Throw e -> exists e', mapThrowing f l = Throw e'.
Proof.
  intros Hx Hf. destruct (mapThrowing f l) as [ys | e'] eqn:El; [| by exists e'].
  apply mapThrowing_Normal in El.
  apply list_elem_of_lookup in Hx as [i Hi].
  destruct (Forall2_lookup_l _ _ _ _ _ El Hi) as (y & _ & Hy). congruence.
Qed.

Lemma mapThrowing_elem {A B} (f : A -> Completion B) l ys y :
  mapThrowing f l = Normal ys -> y ∈ ys -> exists x, x ∈ l /\ f x = Normal y.
Proof.
  intros El Hy. apply mapThrowing_Normal in El.
  apply list_elem_of_lookup in Hy as [i Hi].
  destruct (Forall2_lookup_r _ _ _ _ _ El Hi) as (x & Hx & Hf).
  exists x. split; [by eapply list_elem_of_lookup_2 | done].
Qed.

Lemma mapThrowing_image {A B} (f : A -> Completion B) l ys x :
  mapThrowing f l = Normal ys -> x ∈ l -> exists y, y ∈ ys /\ f x = Normal y.
Proof.
  intros El Hx. apply mapThrowing_Normal in El.
  apply list_elem_of_lookup in Hx as [i Hi].
  destruct (Forall2_lookup_l _ _ _ _ _ El Hi) as (y & Hy & Hf).
  exists y. split; [by eapply list_elem_of_lookup_2 | done].
Qed.

Lemma mapThrowing_length {A B} (f : A -> Completion B) l ys :
  mapThrowing f l = Normal ys -> length ys = length l.
Proof.
  intros El. apply mapThrowing_Normal in El. symmetry. by eapply Forall2_length.
Qed.

(** *** Similarity *)

(** A vector with at least one component, all of them [0] or [-0]. *)
Definition zeroVector (v : list float) : Prop :=
  v <> [] /\ Forall (fun x => is_zero x = true) v.

(** What a score counts as where it is compared or subtracted. *)
Definition rank (c : ScoredChunk) : float := toNumber (score c).

(** The scored copy of a chunk. *)
Definition scoredAs (d : EmbeddedChunk) (similarity : option float) : ScoredChunk :=
  {| s_id := id d; s_title := title d; s_content := content d;
     score := similarity |}.

Lemma getSimilarity_not_nan cs va vb s :
  getSimilarity cs va vb = Normal s -> is_nan (toNumber s) = false.
Proof.
  unfold getSimilarity.
  destruct va as [| a | la ta], vb as [| b | lb tb];
    try (by intros [= <-]);
    (destruct (negb _); [by intros [= <-] |];
     destruct (cs _ _) as [result | e]; [| done];
     unfold isNaN; destruct (is_nan (toNumber result)) eqn:E;
     [by intros [= <-] | by intros [= <-]]).
Qed.

Lemma getSimilarity_library cs va vb :
  va <> Absent -> vb <> Absent -> vectorLength va = vectorLength vb ->
  getSimilarity cs va vb
  = match cs va vb with
    | Throw e => Throw e
    | Normal result => if isNaN result then Normal (Some 0%float) else Normal result
    end.
Proof.
  intros Ha Hb Hlen. unfold getSimilarity.
  destruct va as [| a | la ta], vb as [| b | lb tb]; try done;
    by rewrite bool_decide_eq_true_2.
Qed.

Lemma getSimilarity_mismatch cs va vb :
  vectorLength va <> vectorLength vb ->
  getSimilarity cs va vb = Normal (Some 0%float).
Proof.
  intros Hlen. unfold getSimilarity.
  destruct va as [| a | la ta], vb as [| b | lb tb]; try done;
    by rewrite bool_decide_eq_false_2.
Qed.

Lemma scoreDoc_Normal cs q d c :
  scoreDoc cs q d = Normal c
  <-> exists s, getSimilarity cs q (embedding d) = Normal s /\ c = scoredAs d s.
Proof.
  unfold scoreDoc, scoredAs.
  destruct (getSimilarity cs q (embedding d)) as [s | e].
  - split; [intros [= <-]; by exists s | intros (s' & [= <-] & ->); done].
  - split; [done | by intros (s' & ? & _)].
Qed.

Lemma scoreDoc_Throw cs q d e :
  scoreDoc cs q d = Throw e <-> getSimilarity cs q (embedding d) = Throw e.
Proof.
  unfold scoreDoc. destruct (getSimilarity cs q (embedding d)); split; congruence.
Qed.

Lemma dotFrom_zero_r a : forall b sum,
  SFzeroOrNaN (Prim2SF sum) -> Forall (fun x => is_zero x = true) b ->
  SFzeroOrNaN (Prim2SF (Diagnose.dotFrom sum a b)).
Proof.
  induction a as [| val a IH]; intros b sum Hsum Hb; simpl; [done |].
  apply IH.
  - rewrite FloatAxioms.add_spec, FloatAxioms.mul_spec.
    apply SFadd_zeroOrNaN; [done |].
    destruct Hb as [| bi b Hbi Hb].
    + change (Prim2SF nan) with S754_nan. by rewrite SFmul_nan_r.
    + apply SFmul_zero_r. by apply is_zero_SF.
  - destruct Hb; [constructor | done].
Qed.

Lemma dotFrom_zero_l a : forall b sum,
  SFzeroOrNaN (Prim2SF sum) -> Forall (fun x => is_zero x = true) a ->
  SFzeroOrNaN (Prim2SF (Diagnose.dotFrom sum a b)).
Proof.
  induction a as [| val a IH]; intros b sum Hsum Ha; simpl; [done |].
  apply Forall_cons in Ha as [Hval Ha].
  apply IH; [| done].
  rewrite FloatAxioms.add_spec, FloatAxioms.mul_spec.
  apply SFadd_zeroOrNaN; [done |].
  apply SFmul_zero_l. by apply is_zero_SF.
Qed.

Lemma magnitude_zero a :
  Forall (fun x => is_zero x = true) a ->
  SFisZero (Prim2SF (Diagnose.magnitude a)).
Proof.
  intros Ha. unfold Diagnose.magnitude. rewrite FloatAxioms.sqrt_spec.
  apply SFsqrt_zero.
  assert (SFisZero (Prim2SF 0%float)) as H0 by exact I.
  revert H0. generalize 0%float.
  induction Ha as [| val a Hval Ha IH]; intros sum Hsum; simpl; [done |].
  apply IH. rewrite FloatAxioms.add_spec, FloatAxioms.mul_spec.
  apply is_zero_SF in Hval.
  apply SFadd_zero; [done |]. by apply SFmul_zero_zero.
Qed.

(** Against a zero vector the quotient is [0 / 0] or has a NaN operand. *)
Lemma cosineSimilarity_zero a b :
  Forall (fun x => is_zero x = true) a \/ Forall (fun x => is_zero x = true) b ->
  is_nan (Diagnose.cosineSimilarity a b) = true.
Proof.
  intros Hz. apply is_nan_true. unfold Diagnose.cosineSimilarity.
  rewrite FloatAxioms.div_spec, FloatAxioms.mul_spec.
  assert (SFzeroOrNaN (Prim2SF 0%float)) as H0 by exact I.
  destruct Hz as [Ha | Hb].
  - apply SFdiv_zeroOrNaN; [by apply dotFrom_zero_l |].
    apply SFmul_zero_l. by apply magnitude_zero.
  - apply SFdiv_zeroOrNaN; [by apply dotFrom_zero_r |].
    apply SFmul_zero_r. by apply magnitude_zero.
Qed.

(** C5 (as amended): getSimilarity returns exactly 0 when a vector is
    missing, when the lengths differ, and when the library result is NaN,
    which (with cosine similarity computed as dot product over the product
    of the magnitudes) is the case for a zero vector with at least one
    component on either side; it never returns NaN.  It does not catch what
    the library throws: for two present vectors of equal length a throw of
    the library is a throw of getSimilarity, and a throw for one chunk makes
    retrieveTopK throw for the whole store. *)
Theorem getSimilarity_degenerate :
  (forall cs vb, getSimilarity cs Absent vb = Normal (Some 0%float))
  /\ (forall cs va, getSimilarity cs va Absent = Normal (Some 0%float))
  /\ (forall cs va vb,
        vectorLength va <> vectorLength vb ->
        getSimilarity cs va vb = Normal (Some 0%float))
  /\ (forall cs va vb x,
        cs va vb = Normal (Some x) -> is_nan x = true ->
        getSimilarity cs va vb = Normal (Some 0%float))
  /\ (forall a b,
        zeroVector a \/ zeroVector b ->
        getSimilarity Package.cosineSimilarity (Numbers a) (Numbers b)
        = Normal (Some 0%float))
  /\ (forall cs va vb s,
        getSimilarity cs va vb = Normal s -> is_nan (toNumber s) = false)
  /\ (forall cs va vb e,
        va <> Absent -> vb <> Absent -> vectorLength va = vectorLength vb ->
        cs va vb = Throw e -> getSimilarity cs va vb = Throw e)
  /\ (forall cs q docs k t d e,
        d ∈ docs -> getSimilarity cs q (embedding d) = Throw e ->
        exists e', retrieveTopK cs q docs k t = Throw e').
Proof.
  split; [done |]. split; [by intros cs [| a | la ta] |].
  split; [apply getSimilarity_mismatch |].
  split; [| split; [| split; [| split]]].
  - intros cs va vb x Hcs Hnan. unfold getSimilarity.
    destruct va as [| a | la ta], vb as [| b | lb tb]; try done;
      (destruct (negb _); [done |];
       rewrite Hcs; unfold isNaN; cbn [toNumber]; by rewrite Hnan).
  - intros a b Hz.
    destruct (decide (length a = length b)) as [Hlen | Hlen];
      [| apply getSimilarity_mismatch; simpl; congruence].
    rewrite getSimilarity_library by (simpl; congruence).
    unfold Package.cosineSimilarity.
    rewrite (proj2 (Nat.eqb_eq _ _) Hlen). cbn [negb].
    assert (a <> []) as Ha.
    { destruct Hz as [[Ha _] | [Hb _]]; [done |].
      intros ->. destruct b; [done | discriminate]. }
    destruct a as [| x a]; [done |]. cbn [length Nat.eqb].
    unfold isNaN. cbn [toNumber].
    rewrite cosineSimilarity_zero; [reflexivity |].
    destruct Hz as [[_ H] | [_ H]]; auto.
  - apply getSimilarity_not_nan.
  - intros cs va vb e Ha Hb Hlen Hcs. rewrite getSimilarity_library by done.
    by rewrite Hcs.
  - intros cs q docs k t d e Hd He. unfold retrieveTopK.
    destruct (mapThrowing_throws (scoreDoc cs q) docs d e Hd) as [e' ->];
      [by apply scoreDoc_Throw | by exists e'].
Qed.

Lemma getSimilarity_degenerate_witness :
  getSimilarity Package.cosineSimilarity (Numbers [1; 2]%float) (Numbers [1; 2; 3]%float)
    = Normal (Some 0%float)
  /\ getSimilarity Package.cosineSimilarity (Numbers [1; 2]%float)
       (Numbers [0; (-0)]%float)
     = Normal (Some 0%float)
  /\ getSimilarity (fun _ _ => Normal (Some nan)) (Numbers [1]%float) (Numbers [1]%float)
     = Normal (Some 0%float).
Proof.
  destruct getSimilarity_degenerate as (_ & _ & Hlen & Hnan & Hzero & _).
  split; [apply Hlen; simpl; congruence |].
  split; [| by apply (Hnan _ _ _ nan)].
  apply Hzero. right. split; [discriminate |].
  repeat constructor.
Defined.

(** C5 as stated fails.  For a stored embedding that is no array but has
    the query's length the package throws, getSimilarity throws with it, and
    ranking the store that holds this one chunk beside a good one throws as
    well.  And for two empty arrays the package returns [null], which
    [isNaN] does not catch, so getSimilarity returns [null], not 0. *)
Lemma getSimilarity_null_and_throw :
  let bad :=
    {| id := lit "B"; docId := lit "B"; title := lit "B"; chunkIndex := 0;
       content := lit "B"; embedding := NotArray (Some 2) (lit "ab") |} in
  let good :=
    {| id := lit "A"; docId := lit "A"; title := lit "A"; chunkIndex := 0;
       content := lit "A"; embedding := Numbers [1; 2]%float |} in
  getSimilarity Package.cosineSimilarity (Numbers [1; 2]%float) (embedding bad)
  = Throw (Package.invalidArgument "Second" (lit "ab"))
  /\ retrieveTopK Package.cosineSimilarity (Numbers [1; 2]%float) [good; bad] 3 0.65%float
     = Throw (Package.invalidArgument "Second" (lit "ab"))
  /\ getSimilarity Package.cosineSimilarity (Numbers []) (Numbers []) = Normal None.
Proof. repeat split; vm_compute; reflexivity. Qed.

(** *** Ranking *)

Lemma scored_keyed cs q (docs : list EmbeddedChunk) scored :
  mapThrowing (scoreDoc cs q) docs = Normal scored -> Forall (keyed rank) scored.
Proof.
  intros Hscored. apply Forall_forall. intros c Hc.
  destruct (mapThrowing_elem _ _ _ _ Hscored Hc) as (d & _ & Hd).
  apply scoreDoc_Normal in Hd as (s & Hs & ->).
  by apply getSimilarity_not_nan in Hs.
Qed.

Lemma rankScored_take scored k t :
  rankScored scored k t
  = take k (sort (fun a b => rank b - rank a)%float
              (filter (fun c => (t <=? rank c)%float = true) scored)).
Proof. unfold rankScored. apply slice_prefix. Qed.




Definition chunkOf (name : string) (v : list float) : EmbeddedChunk :=
  {| id := lit name; docId := lit name; title := lit name; chunkIndex := 0;
     content := lit name; embedding := Numbers v |}.



End VectorMathFacts.

(** ** Properties of the prompt composer and the pipeline *)

Section RagFacts.
Import JS VectorMath SessionStore Rag.

(** The context entry the design document describes, for the chunk at the
    1-based position [index]:
    [[index] (Source: "<title>", Relevance: <score*100 to 1 decimal>%)],
    a line break, then the content. *)
Definition contextEntry (index : nat) (c : ScoredChunk) : jsstring :=
  lit "[" ++ decimal (N.of_nat index) ++ lit "] (Source: " ++ dquote
  ++ s_title c ++ dquote ++ lit ", Relevance: "
  ++ toFixed (toNumber (score c) * 100)%float 1 ++ lit "%)" ++ newline
  ++ s_content c.

(** The entries of the chunks in the order given, numbered from [index]. *)
Fixpoint contextEntries (index : nat) (chunks : list ScoredChunk) : list jsstring :=
  match chunks with
  | [] => []
  | c :: rest => contextEntry index c :: contextEntries (S index) rest
  end.

(** A history line: [<User|Assistant>: <content>]. *)
Definition historyLine (m : Message) : jsstring :=
  match role m with
  | user => lit "User: " ++ content m
  | model => lit "Assistant: " ++ content m
  end.

(** The context block: the entries in the order given, numbered from 1 and
    separated by a blank line. *)
Definition contextBlockOf (chunks : list ScoredChunk) : jsstring :=
  match chunks with
  | [] => lit "No relevant context found."
  | _ :: _ => join (newline ++ newline) (contextEntries 1 chunks)
  end.

(** The history block: one line per turn in chronological order, or the
    placeholder when there is no turn. *)
Definition historyBlockOf (history : list Message) : jsstring :=
  match history with
  | [] => lit "No previous conversation."
  | _ :: _ => join newline (map historyLine history)
  end.

Lemma mapi_from_renderChunk i0 chunks :
  mapi_from renderChunk i0 chunks = contextEntries (S i0) chunks.
Proof.
  revert i0. induction chunks as [| c rest IH]; intros i0; simpl; [done |].
  rewrite IH. unfold renderChunk, contextEntry.
  by replace (i0 + 1) with (S i0) by lia.
Qed.

Lemma contextEntries_lookup chunks : forall index i c,
  chunks !! i = Some c ->
  contextEntries index chunks !! i = Some (contextEntry (index + i) c).
Proof.
  induction chunks as [| c0 rest IH]; intros index [| i] c Hc; simplify_eq/=.
  - by rewrite Nat.add_0_r.
  - rewrite (IH (S index) i c Hc). do 2 f_equal. lia.
Qed.

Lemma contextEntries_length index chunks :
  length (contextEntries index chunks) = length chunks.
Proof. revert index. induction chunks; intros; simpl; [done | by f_equal]. Qed.

Lemma renderTurn_historyLine m : renderTurn m = historyLine m.
Proof. unfold renderTurn, historyLine. by destruct (role m). Qed.

(** C9: the prompt is the instruction block, then the context block, the
    history block, the question and the answer cue.  The context block lists
    one entry per chunk, in the order given, the i-th being
    [[i] (Source: "<title>", Relevance: <score*100 to 1 decimal>%)], a line
    break and the content, entries separated by a blank line.  The history
    block has one line [<User|Assistant>: <content>] per turn, in order, and
    is the placeholder [No previous conversation.] when there is no turn. *)
Theorem buildPrompt_layout (chunks : list ScoredChunk) (history : list Message)
    (question : jsstring) :
  buildPrompt chunks history question
  = INSTRUCTIONS ++ newline ++ newline
    ++ lit "---" ++ newline
    ++ lit "CONTEXT FROM KNOWLEDGE BASE:" ++ newline
    ++ contextBlockOf chunks ++ newline ++ newline
    ++ lit "---" ++ newline
    ++ lit "CONVERSATION HISTORY:" ++ newline
    ++ historyBlockOf history ++ newline ++ newline
    ++ lit "---" ++ newline
    ++ lit "USER QUESTION:" ++ newline
    ++ question ++ newline ++ newline
    ++ lit "ANSWER:"
  /\ length (contextEntries 1 chunks) = length chunks
  /\ (forall i c, chunks !! i = Some c ->
        contextEntries 1 chunks !! i = Some (contextEntry (i + 1) c))
  /\ (forall i m, history !! i = Some m ->
        map historyLine history !! i = Some (historyLine m)).
Proof.
  split; [| split; [| split]].
  - unfold buildPrompt, contextBlockOf, historyBlockOf, mapi.
    rewrite mapi_from_renderChunk.
    rewrite (map_ext _ _ renderTurn_historyLine).
    by destruct chunks, history.
  - apply contextEntries_length.
  - intros i c Hc. rewrite (contextEntries_lookup chunks 1 i c Hc).
    do 2 f_equal. lia.
  - intros i m Hm. change (map historyLine history) with (historyLine <$> history).
    by rewrite list_lookup_fmap, Hm.
Qed.

Lemma buildPrompt_layout_witness :
  includes
    (buildPrompt
       [mkScoredChunk (lit "doc1-chunk-1") (lit "Password Reset")
          (lit "Open Settings.") (Some 0.87%float)]
       [] (lit "How do I reset my password?"))
    (lit "[1] (Source: " ++ dquote ++ lit "Password Reset" ++ dquote
     ++ lit ", Relevance: 87.0%)" ++ newline ++ lit "Open Settings."
     ++ newline ++ newline ++ lit "---" ++ newline
     ++ lit "CONVERSATION HISTORY:" ++ newline
     ++ lit "No previous conversation.") = true.
Proof.
  rewrite (proj1 (buildPrompt_layout
             [mkScoredChunk (lit "doc1-chunk-1") (lit "Password Reset")
                (lit "Open Settings.") (Some 0.87%float)]
             [] (lit "How do I reset my password?"))).
  vm_compute. reflexivity.
Defined.

(** No chunk reaches the threshold: nothing is retrieved. *)
Lemma retrieveTopK_none cs q (docs : list EmbeddedChunk) k t :
  Forall (fun d => exists s, getSimilarity cs q (embedding d) = Normal s
                    /\ (t <=? toNumber s)%float = false) docs ->
  retrieveTopK cs q docs k t = Normal [].
Proof.
  intros Hall. unfold retrieveTopK.
  assert (exists scored,
            mapThrowing (scoreDoc cs q) docs = Normal scored
            /\ filter (fun c => (t <=? rank c)%float = true) scored = [])
    as (scored & -> & Hnone).
  { induction Hall as [| d docs (s & Hs & Hd) Hall (scored & IH & Hnone)];
      [by exists [] |].
    exists (scoredAs d s :: scored). simpl. unfold scoreDoc at 1.
    rewrite Hs, IH. split; [done |].
    rewrite filter_cons_False; [done |].
    unfold rank. simpl. by rewrite Hd. }
  rewrite rankScored_take, Hnone. simpl. by rewrite take_nil.
Qed.

(** How many times the generation capability has been invoked. *)
Definition isGenerate (c : Call) : bool :=
  match c with GenerateContent _ => true | EmbedContent _ => false end.

Definition generateCount (calls : list Call) : nat :=
  length (filter (fun c => isGenerate c = true) calls).

(** C1: when the embedding call yields a query vector whose similarity to
    every stored chunk is below the threshold, the pipeline returns the
    fallback result (fallback = true, tokensUsed = 0, retrievedChunks = 0,
    no scores), and the only provider call it makes is the embedding call:
    the count of generation calls is what it was before the run. *)
Theorem runRAGPipeline_fallback cs (provider : Provider) (userMessage : jsstring)
    (vectorStore : list EmbeddedChunk) (history : list Message)
    (threshold : float) (calls : list Call) (queryVector : option (list float)) :
  embedContent provider calls userMessage = Normal queryVector ->
  Forall (fun d => exists s,
            getSimilarity cs (vectorOf queryVector) (embedding d) = Normal s
            /\ (toNumber s <? threshold)%float = true)
         vectorStore ->
  exists result calls',
    runRAGPipeline cs provider userMessage vectorStore history threshold calls
    = (Normal result, calls')
    /\ fallback result = true
    /\ tokensUsed result = 0%N
    /\ retrievedChunks result = 0
    /\ scores result = []
    /\ calls' = calls ++ [EmbedContent userMessage]
    /\ generateCount calls' = generateCount calls.
Proof.
  intros Hembed Hbelow. exists fallbackResult, (calls ++ [EmbedContent userMessage]).
  split.
  - unfold runRAGPipeline, bind, tryCatch, callEmbed. rewrite Hembed.
    unfold complete. rewrite retrieveTopK_none; [done |].
    eapply Forall_impl; [exact Hbelow |].
    intros d (s & Hs & Hd). exists s. split; [done | by apply ltb_leb_false].
  - repeat split; try done.
    unfold generateCount. rewrite filter_app, length_app. simpl. lia.
Qed.

Definition silentProvider : Provider :=
  {| embedContent := fun _ _ => Normal (Some [0; 1]%float);
     generateContent := fun _ _ => Throw (lit "quota exceeded") |}.

(** A provider whose query vector is the empty array. *)
Definition emptyVectorProvider : Provider :=
  {| embedContent := fun _ _ => Normal (Some []);
     generateContent := fun _ _ =>
       Normal {| text := Normal (lit "Pay by card."); usageMetadata := None |} |}.

Lemma runRAGPipeline_fallback_witness :
  exists result,
    runRAGPipeline Package.cosineSimilarity silentProvider (lit "bill info")
      [chunkOf "A" [1; 0]%float] [] 0.65%float []
    = (Normal result, [EmbedContent (lit "bill info")])
    /\ fallback result = true.
Proof.
  destruct (runRAGPipeline_fallback Package.cosineSimilarity silentProvider
              (lit "bill info") [chunkOf "A" [1; 0]%float] [] 0.65%float []
              (Some [0; 1]%float))
    as (result & calls' & Hrun & Hfb & _ & _ & _ & -> & _).
  - reflexivity.
  - constructor; [| constructor].
    exists (Some 0%float). split; vm_compute; reflexivity.
  - exists result. split; [exact Hrun | exact Hfb].
Defined.

End RagFacts.

(** ** Properties of the chat handler *)

Section ServerFacts.
Import JS VectorMath SessionStore Rag Server.

(** How an exchange ends, read off the provider and the store: a provider
    failure during embedding or generation; a failure of the pipeline's own
    (ranking the store throws, or the score of a retrieved chunk is [null]
    where it is rendered); or a reply (the fallback text when nothing is
    retrieved, the generated text otherwise). *)
Inductive ExchangeOutcome :=
  | ProviderFailure
  | PipelineFailure
  | Reply (r : jsstring).

Definition exchangeOutcome (env : Env) (msg : jsstring) (history : list Message)
    (calls : list Call) : ExchangeOutcome :=
  match embedContent (provider env) calls msg with
  | Throw _ => ProviderFailure
  | Normal queryVector =>
      match retrieveTopK (cosine env) (vectorOf queryVector) (vectorStore env)
              TOP_K_RESULTS (SIMILARITY_THRESHOLD env) with
      | Throw _ => PipelineFailure
      | Normal [] => Reply FALLBACK_REPLY
      | Normal top =>
          match generateContent (provider env) (calls ++ [EmbedContent msg])
                  (buildPrompt top history msg) with
          | Throw _ => ProviderFailure
          | Normal response =>
              match text response with
              | Throw _ => ProviderFailure
              | Normal r =>
                  match mapThrowing scoreEntry top with
                  | Throw _ => PipelineFailure
                  | Normal _ => Reply r
                  end
              end
          end
      end
  end.

(** The pipeline throws exactly on a failure, and otherwise returns the
    reply of the exchange. *)
Lemma runRAGPipeline_outcome env msg history calls :
  match exchangeOutcome env msg history calls with
  | ProviderFailure | PipelineFailure =>
      exists e calls',
        runRAGPipeline (cosine env) (provider env) msg (vectorStore env) history
          (SIMILARITY_THRESHOLD env) calls = (Throw e, calls')
  | Reply r =>
      exists result calls',
        runRAGPipeline (cosine env) (provider env) msg (vectorStore env) history
          (SIMILARITY_THRESHOLD env) calls = (Normal result, calls')
        /\ reply result = r
  end.
Proof.
  unfold exchangeOutcome, runRAGPipeline, bind, tryCatch, callEmbed, callGenerate,
    complete, throw, ret.
  destruct (embedContent (provider env) calls msg) as [qv | e]; [| eauto].
  destruct (retrieveTopK _ _ _ _ _) as [[| c top] | e] eqn:Etop;
    [simpl; eauto | | eauto].
  cbn [length Nat.eqb].
  destruct (generateContent _ _ _) as [response | e]; [| eauto].
  destruct (text response) as [r | e]; [| eauto].
  destruct (mapThrowing scoreEntry (c :: top)) as [entries | e]; eauto.
Qed.

Lemma errorResponse_status message : status (errorResponse message) <> 200.
Proof.
  unfold errorResponse.
  repeat (match goal with |- context [if ?b then _ else _] => destruct b end);
    simpl; lia.
Qed.

Lemma recordMessage_turns env sid r c w :
  turnsOf (sessions (recordMessage env sid r c w)) sid
  = turnsOf (sessions w) sid ++ [mkMessage r c (isoString env (clockReads w))].
Proof. unfold recordMessage. simpl. apply addMessage_turns. Qed.

Lemma recordMessage_turns_ne env sid sid' r c w :
  sid <> sid' ->
  turnsOf (sessions (recordMessage env sid r c w)) sid' = turnsOf (sessions w) sid'.
Proof. intros. unfold recordMessage. simpl. by apply addMessage_turns_ne. Qed.

Lemma recordMessage_clock env sid r c w :
  clockReads (recordMessage env sid r c w) = S (clockReads w).
Proof. done. Qed.

(** Auto-creating the session changes no list of turns. *)
Lemma autoCreate_turns (s : Sessions) sid sid' :
  turnsOf (if sessionExists s sid then s else createSession s sid) sid'
  = turnsOf s sid'.
Proof.
  destruct (sessionExists s sid) eqn:E; [done |].
  apply sessionExists_false in E. unfold createSession, turnsOf.
  destruct (decide (sid = sid')) as [<- | Hne].
  - by rewrite lookup_insert_eq, E.
  - by rewrite lookup_insert_ne.
Qed.

Lemma autoCreate_history (s : Sessions) sid :
  getHistory (if sessionExists s sid then s else createSession s sid) sid
  = getHistory s sid.
Proof. by rewrite !getHistory_stored, autoCreate_turns. Qed.

(** The DELETE handler guards the reset: an unknown id is answered with 404
    and creates nothing. *)
Lemma deleteSession_unknown id w :
  sessionExists (sessions w) id = false ->
  deleteSession id w = (mkResponse 404 (ErrorBody (lit "Session not found")), w).
Proof. intros H. unfold deleteSession. by rewrite H. Qed.

(** A request that fails validation is rejected before anything is read or
    written. *)
Lemma chat_rejected_unchanged env req w :
  status (chat env req w).1 = 400 -> (chat env req w).2 = w.
Proof.
  unfold chat.
  destruct (requiredString (sessionId req)) as [sid |]; [| done].
  destruct (requiredString (message req)) as [raw |]; [| done].
  destruct (length (trim raw) =? 0); [done |].
  destruct (2000 <? length (trim raw)); [done |].
  cbn [readClock]. destruct (runRAGPipeline _ _ _ _ _ _ _) as [[result | e] calls'].
  - simpl. discriminate.
  - cbn [fst snd]. unfold errorResponse.
    repeat (match goal with |- context [if ?b then _ else _] => destruct b end);
      simpl; discriminate.
Qed.

(** C6: for a chat request that passes validation, a provider failure during
    embedding or generation leaves every session's list of turns as it was
    and is answered with an error status, and so does a failure of the
    pipeline's own (ranking the store throws, or a retrieved score is
    [null]); an exchange that succeeds (the fallback path included) is
    answered with status 200 and appends to the session exactly the user
    turn and then the assistant turn, leaving the other sessions as they
    were. *)
Theorem chat_records_exchange (env : Env) (req : ChatRequest) (w : World)
    (sid raw : jsstring) :
  requiredString (sessionId req) = Some sid ->
  requiredString (message req) = Some raw ->
  0 < length (trim raw) <= 2000 ->
  match exchangeOutcome env (trim raw) (getHistory (sessions w) sid) (calls w) with
  | ProviderFailure | PipelineFailure =>
      status (chat env req w).1 <> 200
      /\ sessions (chat env req w).2
         = (if sessionExists (sessions w) sid then sessions w
            else createSession (sessions w) sid)
      /\ forall sid', turnsOf (sessions (chat env req w).2) sid'
                      = turnsOf (sessions w) sid'
  | Reply r =>
      status (chat env req w).1 = 200
      /\ turnsOf (sessions (chat env req w).2) sid
         = turnsOf (sessions w) sid
           ++ [mkMessage user (trim raw) (isoString env (clockReads w + 2));
               mkMessage model r (isoString env (clockReads w + 3))]
      /\ forall sid', sid <> sid' ->
            turnsOf (sessions (chat env req w).2) sid' = turnsOf (sessions w) sid'
  end.
Proof.
  intros Hsid Hmsg [Hlo Hhi].
  pose proof (runRAGPipeline_outcome env (trim raw) (getHistory (sessions w) sid) (calls w))
    as Hout.
  unfold chat. rewrite Hsid, Hmsg.
  destruct (Nat.eqb_spec (length (trim raw)) 0); [lia |].
  destruct (Nat.ltb_spec 2000 (length (trim raw))); [lia |].
  cbn [readClock withSessions withCalls sessions calls clockReads].
  assert (sessions (if sessionExists (sessions w) sid then w
                    else withSessions w (createSession (sessions w) sid))
          = if sessionExists (sessions w) sid then sessions w
            else createSession (sessions w) sid) as Hs
    by (by destruct (sessionExists (sessions w) sid)).
  assert (calls (if sessionExists (sessions w) sid then w
                 else withSessions w (createSession (sessions w) sid))
          = calls w) as Hc
    by (by destruct (sessionExists (sessions w) sid)).
  assert (clockReads (if sessionExists (sessions w) sid then w
                      else withSessions w (createSession (sessions w) sid))
          = clockReads w) as Hk
    by (by destruct (sessionExists (sessions w) sid)).
  rewrite Hs, Hc, Hk, autoCreate_history.
  destruct (exchangeOutcome env (trim raw) (getHistory (sessions w) sid) (calls w))
    as [| | r].
  - destruct Hout as (e & calls' & ->). cbn [fst snd sessions withCalls].
    split; [apply errorResponse_status |]. split; [done |].
    intros sid'. apply autoCreate_turns.
  - destruct Hout as (e & calls' & ->). cbn [fst snd sessions withCalls].
    split; [apply errorResponse_status |]. split; [done |].
    intros sid'. apply autoCreate_turns.
  - destruct Hout as (result & calls' & -> & <-). cbn [fst snd status].
    split; [done |]. split.
    + rewrite !recordMessage_turns, !recordMessage_clock. cbn [sessions clockReads].
      rewrite autoCreate_turns, <- app_assoc. simpl.
      by replace (clockReads w + 2) with (S (S (clockReads w))) by lia;
         replace (clockReads w + 3) with (S (S (S (clockReads w)))) by lia.
    + intros sid' Hne. rewrite !recordMessage_turns_ne by done.
      cbn [sessions]. apply autoCreate_turns.
Qed.

Definition demoEnv : Env :=
  {| vectorStore := [chunkOf "A" [1; 0]%float];
     SIMILARITY_THRESHOLD := 0.65%float;
     cosine := Package.cosineSimilarity;
     provider := silentProvider;
     dateNow := fun n => Z.of_nat n;
     isoString := fun n => decimal (N.of_nat n) |}.

Definition failingProvider : Provider :=
  {| embedContent := fun _ _ => Throw (lit "request timeout");
     generateContent := fun _ _ => Throw (lit "request timeout") |}.

Definition failingEnv : Env :=
  {| vectorStore := vectorStore demoEnv;
     SIMILARITY_THRESHOLD := SIMILARITY_THRESHOLD demoEnv;
     cosine := cosine demoEnv;
     provider := failingProvider;
     dateNow := dateNow demoEnv;
     isoString := isoString demoEnv |}.

(** A store and a query of empty vectors under threshold 0: the one chunk is
    retrieved with a [null] score. *)
Definition nullScoreEnv : Env :=
  {| vectorStore := [chunkOf "E" []];
     SIMILARITY_THRESHOLD := 0%float;
     cosine := Package.cosineSimilarity;
     provider := emptyVectorProvider;
     dateNow := dateNow demoEnv;
     isoString := isoString demoEnv |}.

Definition demoRequest : ChatRequest :=
  {| sessionId := Str (lit "s1"); message := Str (lit " bill info ") |}.

Definition demoWorld : World :=
  {| sessions := ∅; calls := []; clockReads := 0 |}.

Lemma chat_records_exchange_witness :
  (status (chat demoEnv demoRequest demoWorld).1 = 200
   /\ turnsOf (sessions (chat demoEnv demoRequest demoWorld).2) (lit "s1")
      = [mkMessage user (lit "bill info") (lit "2");
         mkMessage model FALLBACK_REPLY (lit "3")])
  /\ (status (chat failingEnv demoRequest demoWorld).1 = 504
      /\ turnsOf (sessions (chat failingEnv demoRequest demoWorld).2) (lit "s1") = [])
  /\ (status (chat nullScoreEnv demoRequest demoWorld).1 = 500
      /\ turnsOf (sessions (chat nullScoreEnv demoRequest demoWorld).2) (lit "s1") = []).
Proof.
  split; [| split].
  - pose proof (chat_records_exchange demoEnv demoRequest demoWorld
                  (lit "s1") (lit " bill info ") eq_refl eq_refl) as H.
    destruct H as (Hs & Ht & _); [vm_compute; lia |].
    split; [exact Hs | exact Ht].
  - pose proof (chat_records_exchange failingEnv demoRequest demoWorld
                  (lit "s1") (lit " bill info ") eq_refl eq_refl) as H.
    destruct H as (_ & _ & Ht); [vm_compute; lia |].
    split; [vm_compute; reflexivity | apply Ht].
  - pose proof (chat_records_exchange nullScoreEnv demoRequest demoWorld
                  (lit "s1") (lit " bill info ") eq_refl eq_refl) as H.
    destruct H as (_ & _ & Ht); [vm_compute; lia |].
    split; [vm_compute; reflexivity | apply Ht].
Defined.

End ServerFacts.

(** ** Further properties of the session store *)

Section SessionStoreMore.
Import JS SessionStore.

(** An operation of the store on one session id. *)
Inductive StoreOp :=
  | OpAddMessage (r : Role) (c : jsstring) (now : jsstring)
  | OpCreateSession
  | OpClearSession.

Definition applyOp (sid : jsstring) (sessions : Sessions) (op : StoreOp) : Sessions :=
  match op with
  | OpAddMessage r c now => addMessage sessions sid r c now
  | OpCreateSession => createSession sessions sid
  | OpClearSession => clearSession sessions sid
  end.

Lemma applyOp_lookup_ne (sid sid' : jsstring) (sessions : Sessions) (op : StoreOp) :
  sid <> sid' -> applyOp sid sessions op !! sid' = sessions !! sid'.
Proof.
  intros Hne. destruct op; simpl.
  - rewrite addMessage_lookup. by apply lookup_insert_ne.
  - by apply lookup_insert_ne.
  - by apply lookup_insert_ne.
Qed.

Lemma getHistory_lookup (s1 s2 : Sessions) (sid : jsstring) :
  s1 !! sid = s2 !! sid -> getHistory s1 sid = getHistory s2 sid.
Proof. unfold getHistory. by intros ->. Qed.

Lemma sessionExists_lookup (s1 s2 : Sessions) (sid : jsstring) :
  s1 !! sid = s2 !! sid -> sessionExists s1 sid = sessionExists s2 sid.
Proof. unfold sessionExists. by intros ->. Qed.

(** X1: addMessage appends the message to the session's stored turns and
    creates the session first when the id is unknown: afterwards the id
    exists, the stored turns are the former ones (none for an unknown id)
    followed by the new message, and the session count grows by one exactly
    when the id was unknown. *)
Theorem addMessage_appends_or_creates (sessions : Sessions) (sid : jsstring)
    (r : Role) (c now : jsstring) :
  addMessage sessions sid r c now !! sid
  = Some (default [] (sessions !! sid) ++ [mkMessage r c now])
  /\ sessionExists (addMessage sessions sid r c now) sid = true
  /\ getSessionCount (addMessage sessions sid r c now)
     = (if sessionExists sessions sid then getSessionCount sessions
        else S (getSessionCount sessions)).
Proof.
  rewrite addMessage_lookup. fold (turnsOf sessions sid).
  split; [apply lookup_insert_eq |]. split.
  - apply sessionExists_true. rewrite lookup_insert_eq. eauto.
  - unfold getSessionCount. destruct (sessionExists sessions sid) eqn:E.
    + apply sessionExists_true in E. by apply map_size_insert_Some.
    + apply sessionExists_false in E. by apply map_size_insert_None.
Qed.

(** X2: createSession and clearSession are the same unconditional reset.
    On a session that already has stored turns each of them discards the
    turns and keeps the session: the id still exists, its history is empty
    and the session count is unchanged. *)
Theorem createSession_discards_history (sessions : Sessions) (sid : jsstring)
    (msgs : list Message) :
  sessions !! sid = Some msgs ->
  createSession sessions sid = clearSession sessions sid
  /\ sessionExists (createSession sessions sid) sid = true
  /\ createSession sessions sid !! sid = Some []
  /\ getHistory (createSession sessions sid) sid = []
  /\ getSessionCount (createSession sessions sid) = getSessionCount sessions.
Proof.
  intros Hs. unfold createSession, clearSession, getSessionCount.
  split; [done |]. split; [| split; [| split]].
  - apply sessionExists_true. rewrite lookup_insert_eq. eauto.
  - apply lookup_insert_eq.
  - unfold getHistory. by rewrite lookup_insert_eq.
  - apply map_size_insert_Some. eauto.
Qed.

Lemma createSession_discards_history_witness :
  let s := addMessage ∅ (lit "s1") user (lit "hi") (lit "t0") in
  getHistory s (lit "s1") = [mkMessage user (lit "hi") (lit "t0")]
  /\ getHistory (createSession s (lit "s1")) (lit "s1") = []
  /\ getSessionCount (createSession s (lit "s1")) = 1.
Proof.
  intros s.
  destruct (createSession_discards_history s (lit "s1")
              [mkMessage user (lit "hi") (lit "t0")])
    as (_ & _ & _ & Hh & Hc); [vm_compute; reflexivity |].
  split; [vm_compute; reflexivity |]. split; [exact Hh |].
  rewrite Hc. vm_compute. reflexivity.
Defined.

(** X3: sessions are isolated: whatever sequence of addMessage,
    createSession and clearSession calls is made on one session id, every
    other session keeps its stored turns, its history and its existence. *)
Theorem session_isolation (sessions : Sessions) (sid sid' : jsstring)
    (ops : list StoreOp) :
  sid <> sid' ->
  foldl (applyOp sid) sessions ops !! sid' = sessions !! sid'
  /\ getHistory (foldl (applyOp sid) sessions ops) sid' = getHistory sessions sid'
  /\ sessionExists (foldl (applyOp sid) sessions ops) sid'
     = sessionExists sessions sid'.
Proof.
  intros Hne.
  assert (foldl (applyOp sid) sessions ops !! sid' = sessions !! sid') as H.
  { revert sessions. induction ops as [| op ops IH]; intros sessions; [done |].
    simpl. rewrite IH. by apply applyOp_lookup_ne. }
  split; [exact H |].
  split; [by apply getHistory_lookup | by apply sessionExists_lookup].
Qed.

Lemma session_isolation_witness :
  let s := addMessage ∅ (lit "b") user (lit "kept") (lit "t0") in
  getHistory
    (foldl (applyOp (lit "a")) s
       [OpAddMessage user (lit "x") (lit "t1"); OpClearSession; OpCreateSession])
    (lit "b")
  = [mkMessage user (lit "kept") (lit "t0")].
Proof.
  intros s.
  destruct (session_isolation s (lit "a") (lit "b")
              [OpAddMessage user (lit "x") (lit "t1"); OpClearSession; OpCreateSession])
    as (_ & Hh & _); [discriminate |].
  rewrite Hh. vm_compute. reflexivity.
Defined.

End SessionStoreMore.

(** ** Further properties of the similarity ranker *)

Section VectorMathMore.
Import JS VectorMath.

(** The scored chunks that reach the threshold, in store order. *)
Definition passing (scored : list ScoredChunk) (t : float) : list ScoredChunk :=
  filter (fun c => (t <=? rank c)%float = true) scored.

Lemma retrieveTopK_take cs q docs k t :
  retrieveTopK cs q docs k t
  = match mapThrowing (scoreDoc cs q) docs with
    | Throw e => Throw e
    | Normal scored =>
        Normal (take k (sort (fun a b => rank b - rank a)%float (passing scored t)))
    end.
Proof.
  unfold retrieveTopK. destruct (mapThrowing _ _); [| done].
  by rewrite rankScored_take.
Qed.

Lemma retrieveTopK_returns cs q docs k t result :
  retrieveTopK cs q docs k t = Normal result ->
  exists scored,
    mapThrowing (scoreDoc cs q) docs = Normal scored
    /\ result = take k (sort (fun a b => rank b - rank a)%float (passing scored t)).
Proof.
  rewrite retrieveTopK_take. destruct (mapThrowing _ _) as [scored | e]; [| done].
  intros [= <-]. by exists scored.
Qed.

Lemma retrieveTopK_throws cs q docs k t e :
  retrieveTopK cs q docs k t = Throw e ->
  exists d, d ∈ docs /\ getSimilarity cs q (embedding d) = Throw e.
Proof.
  rewrite retrieveTopK_take.
  destruct (mapThrowing _ _) as [scored | e'] eqn:Hscored; [done |].
  intros [= ->]. apply mapThrowing_Throw in Hscored as (d & Hd & He).
  exists d. split; [done | by apply scoreDoc_Throw].
Qed.

Lemma retrieveTopK_elem cs q docs k t result c :
  retrieveTopK cs q docs k t = Normal result -> c ∈ result ->
  (t <=? rank c)%float = true
  /\ exists d, d ∈ docs
       /\ getSimilarity cs q (embedding d) = Normal (score c)
       /\ c = scoredAs d (score c).
Proof.
  intros Hrun Hc. apply retrieveTopK_returns in Hrun as (scored & Hscored & ->).
  apply (subseteq_take k) in Hc. rewrite sort_perm in Hc.
  apply list_elem_of_filter in Hc as [Ht Hc]. split; [done |].
  destruct (mapThrowing_elem _ _ _ _ Hscored Hc) as (d & Hd & Hdc).
  apply scoreDoc_Normal in Hdc as (s & Hs & ->).
  exists d. by repeat split.
Qed.

Lemma passing_elem cs q docs scored t d s :
  mapThrowing (scoreDoc cs q) docs = Normal scored ->
  d ∈ docs -> getSimilarity cs q (embedding d) = Normal s ->
  (t <=? toNumber s)%float = true ->
  scoredAs d s ∈ passing scored t.
Proof.
  intros Hscored Hd Hs Ht. apply list_elem_of_filter. split; [done |].
  destruct (mapThrowing_image _ _ _ _ Hscored Hd) as (c & Hc & Hdc).
  apply scoreDoc_Normal in Hdc as (s' & Hs' & ->). congruence.
Qed.

(** X4: every chunk retrieveTopK returns is the scored copy of a chunk of
    the store: its id, title and content are that chunk's, unchanged, and
    its score is what getSimilarity returned for the query and that chunk's
    embedding. *)
Theorem retrieveTopK_from_store cs q (docs : list EmbeddedChunk) (k : nat)
    (t : float) (result : list ScoredChunk) (c : ScoredChunk) :
  retrieveTopK cs q docs k t = Normal result ->
  c ∈ result ->
  exists d, d ∈ docs
    /\ s_id c = id d /\ s_title c = title d /\ s_content c = content d
    /\ getSimilarity cs q (embedding d) = Normal (score c).
Proof.
  intros Hrun Hc.
  destruct (retrieveTopK_elem _ _ _ _ _ _ _ Hrun Hc) as (_ & d & Hd & Hs & ->).
  exists d. by repeat split.
Qed.

Lemma retrieveTopK_from_store_witness :
  exists d, d ∈ [chunkOf "A" [3; 4]%float; chunkOf "D" [1; 0]%float]
    /\ s_title (mkScoredChunk (lit "D") (lit "D") (lit "D") (Some 0.6%float)) = title d.
Proof.
  destruct (retrieveTopK_from_store Package.cosineSimilarity (Numbers [3; 4]%float)
              [chunkOf "A" [3; 4]%float; chunkOf "D" [1; 0]%float] 3 0.5%float
              [mkScoredChunk (lit "A") (lit "A") (lit "A") (Some 1%float);
               mkScoredChunk (lit "D") (lit "D") (lit "D") (Some 0.6%float)]
              (mkScoredChunk (lit "D") (lit "D") (lit "D") (Some 0.6%float)))
    as (d & Hd & _ & Ht & _).
  - vm_compute. reflexivity.
  - apply list_elem_of_further, list_elem_of_here.
  - exists d. split; [exact Hd | exact Ht].
Defined.

(** X5: when it returns, retrieveTopK returns the [k] best of the chunks
    that reach the threshold: it returns [min k n] chunks when [n] chunks
    reach it, the returned chunks together with the ones left out are
    exactly those [n] chunks, and no chunk left out scores above a returned
    chunk.  Otherwise it throws what getSimilarity threw for a chunk of the
    store. *)
Theorem retrieveTopK_best cs q (docs : list EmbeddedChunk) (k : nat) (t : float) :
  match retrieveTopK cs q docs k t with
  | Normal result =>
      exists scored,
        Forall2 (fun d c => scoreDoc cs q d = Normal c) docs scored
        /\ length result = Nat.min k (length (passing scored t))
        /\ exists rest,
             result ++ rest ≡ₚ passing scored t
             /\ forall c c', c ∈ result -> c' ∈ rest ->
                  (rank c' <=? rank c)%float = true
  | Throw e => exists d, d ∈ docs /\ getSimilarity cs q (embedding d) = Throw e
  end.
Proof.
  destruct (retrieveTopK cs q docs k t) as [result | e] eqn:Hrun;
    [| by apply (retrieveTopK_throws cs q docs k t)].
  apply retrieveTopK_returns in Hrun as (scored & Hscored & ->).
  exists scored. split; [by apply mapThrowing_Normal |].
  split; [by rewrite length_take, sort_perm |].
  set (sorted := sort (fun a b => rank b - rank a)%float (passing scored t)).
  exists (drop k sorted). split.
  - by rewrite take_drop; apply sort_perm.
  - assert (StronglySorted (descending rank) sorted) as Hs.
    { apply sort_sorted, Forall_forall. intros c Hc.
      apply list_elem_of_filter in Hc as [_ Hc].
      by apply (proj1 (Forall_forall _ _) (scored_keyed cs q docs scored Hscored)). }
    rewrite <- (take_drop k sorted) in Hs.
    intros c c' Hc Hc'.
    by apply (StronglySorted_app_1_elem_of _ _ _ c c' Hs).
Qed.

End VectorMathMore.

(** ** Sorting and filtering commute *)

Section SortMore.
Import JS.
Context {A : Type} (key : A -> float).

Lemma sortInsert_head_stays x l :
  keyed key x -> Forall (keyed key) l ->
  Forall (descending key x) l ->
  sortInsert (fun a b => key b - key a)%float x l = x :: l.
Proof.
  intros Nx Nl Hx. destruct l as [| y l]; [done |]. simpl.
  rewrite sub_positive.
  apply Forall_cons in Hx as [Hxy _]. apply Forall_cons in Nl as [Ny _].
  unfold descending in Hxy.
  destruct (key x <? key y)%float eqn:E; [| done].
  apply ltb_leb_false in E. congruence.
Qed.

Lemma sortInsert_filter (P : A -> Prop) `{!forall a, Decision (P a)} x l :
  keyed key x -> Forall (keyed key) l ->
  StronglySorted (descending key) l ->
  filter P (sortInsert (fun a b => key b - key a)%float x l)
  = if decide (P x)
    then sortInsert (fun a b => key b - key a)%float x (filter P l)
    else filter P l.
Proof.
  intros Nx. induction l as [| y l IH]; intros Nl Hs.
  - simpl. rewrite filter_cons, filter_nil. by destruct (decide (P x)).
  - apply Forall_cons in Nl as [Ny Nl].
    apply StronglySorted_inv in Hs as [Hs Hy].
    cbn [sortInsert]. rewrite sub_positive.
    destruct (key x <? key y)%float eqn:E.
    + rewrite !(filter_cons P y), IH by done.
      destruct (decide (P y)), (decide (P x)); try done.
      cbn [sortInsert]. by rewrite sub_positive, E.
    + rewrite (filter_cons P x).
      destruct (decide (P x)) as [Px |]; [| done].
      symmetry. apply sortInsert_head_stays; [done | |].
      * apply Forall_forall. intros z Hz.
        apply list_elem_of_filter in Hz as [_ Hz].
        apply elem_of_cons in Hz as [-> | Hz]; [done |].
        by apply (proj1 (Forall_forall _ _) Nl).
      * assert (descending key x y) as Hxy by (by apply ltb_false_leb).
        apply Forall_forall. intros z Hz.
        apply list_elem_of_filter in Hz as [_ Hz].
        apply elem_of_cons in Hz as [-> | Hz]; [done |].
        unfold descending in *. eapply leb_trans; [| exact Hxy].
        by apply (proj1 (Forall_forall _ _) Hy).
Qed.

(** Filtering a sorted array gives the sorted filtered array. *)
Lemma sort_filter (P : A -> Prop) `{!forall a, Decision (P a)} l :
  Forall (keyed key) l ->
  filter P (sort (fun a b => key b - key a)%float l)
  = sort (fun a b => key b - key a)%float (filter P l).
Proof.
  induction l as [| x l IH]; intros Nl; [done |].
  apply Forall_cons in Nl as [Nx Nl].
  cbn [sort foldr]. fold (sort (fun a b => key b - key a)%float l).
  rewrite sortInsert_filter;
    [| done | by rewrite sort_perm | by apply sort_sorted].
  rewrite (filter_cons P x), IH by done.
  by destruct (decide (P x)).
Qed.

(** In a descending array the elements at or above a bound come first. *)
Lemma sorted_filter_prefix (t : float) l :
  StronglySorted (descending key) l ->
  filter (fun a => (t <=? key a)%float = true) l `prefix_of` l.
Proof.
  induction l as [| x l IH]; intros Hs; [done |].
  apply StronglySorted_inv in Hs as [Hs Hx].
  rewrite filter_cons. destruct (decide ((t <=? key x)%float = true)) as [Ht | Ht].
  - by apply prefix_cons, IH.
  - replace (filter _ l) with (@nil A); [apply prefix_nil |].
    symmetry. apply elem_of_nil_inv. intros z Hz.
    apply list_elem_of_filter in Hz as [Hz Hin].
    apply Ht. eapply leb_trans; [exact Hz |].
    by apply (proj1 (Forall_forall _ _) Hx).
Qed.

Lemma prefix_take_le (l1 l : list A) n :
  l1 `prefix_of` l -> length l1 <= n -> l1 `prefix_of` take n l.
Proof.
  intros [r ->] Hn. rewrite take_app_ge by done. by eexists.
Qed.

End SortMore.

Section ThresholdFacts.
Import JS VectorMath.

(** X6: raising the threshold or lowering [k] only truncates the ranking:
    the result for the higher threshold and smaller [k] is a prefix of the
    result for the lower threshold and larger [k]; and the one call throws
    exactly when the other does, with the same error. *)
Theorem retrieveTopK_truncates cs q (docs : list EmbeddedChunk) (k k' : nat)
    (t t' : float) :
  (t <=? t')%float = true -> k <= k' ->
  match retrieveTopK cs q docs k t', retrieveTopK cs q docs k' t with
  | Normal fewer, Normal more => fewer `prefix_of` more
  | Throw e, Throw e' => e = e'
  | _, _ => False
  end.
Proof.
  intros Ht Hk. rewrite !retrieveTopK_take.
  destruct (mapThrowing (scoreDoc cs q) docs) as [scored | e] eqn:Hscored; [| done].
  assert (Forall (keyed rank) (passing scored t)) as Hkeyed.
  { apply Forall_forall. intros c Hc. apply list_elem_of_filter in Hc as [_ Hc].
    by apply (proj1 (Forall_forall _ _) (scored_keyed cs q docs scored Hscored)). }
  assert (passing scored t'
          = filter (fun c => (t' <=? rank c)%float = true) (passing scored t)) as ->.
  { unfold passing. rewrite list_filter_filter. apply list_filter_iff.
    intros c. split; [| tauto]. intros Hc. split; [done |].
    by eapply leb_trans. }
  rewrite <- sort_filter by done.
  apply prefix_take_le.
  - etrans; [apply prefix_take |].
    apply sorted_filter_prefix. by apply sort_sorted.
  - rewrite length_take. lia.
Qed.

Lemma retrieveTopK_truncates_witness :
  let q := Numbers [3; 4]%float in
  let docs := [chunkOf "D" [1; 0]; chunkOf "A" [3; 4]; chunkOf "B" [4; 3]]%float in
  exists fewer more,
    retrieveTopK Package.cosineSimilarity q docs 1 0.9%float = Normal fewer
    /\ retrieveTopK Package.cosineSimilarity q docs 3 0.5%float = Normal more
    /\ map s_id more = [lit "A"; lit "B"; lit "D"]
    /\ fewer `prefix_of` more.
Proof.
  intros q docs.
  pose proof (retrieveTopK_truncates Package.cosineSimilarity q docs 1 3
                0.5%float 0.9%float) as H.
  destruct (retrieveTopK Package.cosineSimilarity q docs 1 0.9%float)
    as [fewer |] eqn:E1; [| vm_compute in E1; discriminate].
  destruct (retrieveTopK Package.cosineSimilarity q docs 3 0.5%float)
    as [more |] eqn:E2; [| vm_compute in E2; discriminate].
  exists fewer, more. split; [done |]. split; [done |].
  split; [vm_compute in E2; by injection E2 as <- |].
  apply H; [vm_compute; reflexivity | lia].
Defined.

End ThresholdFacts.

(** ** Properties of the diagnostic script's cosine similarity *)

Section DiagnoseFacts.
Import JS VectorMath.

Lemma SFmul_comm x y : SF64mul x y = SF64mul y x.
Proof.
  destruct x as [sx | sx | | sx mx ex], y as [sy | sy | | sy my ey];
    unfold SF64mul; simpl; try reflexivity;
    rewrite ?(xorb_comm sx sy); try reflexivity.
  by rewrite (Pos.mul_comm mx my), (Z.add_comm ex ey).
Qed.

Lemma float_mul_comm (x y : float) : (x * y = y * x)%float.
Proof.
  apply Prim2SF_inj. rewrite !FloatAxioms.mul_spec. apply SFmul_comm.
Qed.

Lemma dotFrom_comm a : forall b sum,
  length a = length b -> Diagnose.dotFrom sum a b = Diagnose.dotFrom sum b a.
Proof.
  induction a as [| x a IH]; intros [| y b] sum Hlen; try done.
  simpl in *. rewrite (float_mul_comm x y). apply IH. lia.
Qed.

Lemma SFadd_nan_l x : SF64add S754_nan x = S754_nan.
Proof. done. Qed.

Lemma dotFrom_nan a : forall b sum,
  Prim2SF sum = S754_nan -> Prim2SF (Diagnose.dotFrom sum a b) = S754_nan.
Proof.
  induction a as [| x a IH]; intros b sum Hsum; simpl; [done |].
  apply IH. by rewrite FloatAxioms.add_spec, Hsum.
Qed.

Lemma SFadd_nan_r x : SF64add x S754_nan = S754_nan.
Proof. by destruct x. Qed.

Lemma dotFrom_short a : forall b sum,
  length b < length a -> Prim2SF (Diagnose.dotFrom sum a b) = S754_nan.
Proof.
  induction a as [| x a IH]; intros b sum Hlen; simpl in *; [lia |].
  destruct b as [| y b].
  - apply dotFrom_nan.
    rewrite FloatAxioms.add_spec, FloatAxioms.mul_spec.
    change (Prim2SF nan) with S754_nan.
    by rewrite SFmul_nan_r, SFadd_nan_r.
  - apply IH. simpl in *. lia.
Qed.

Lemma SFdiv_nan_l x : SF64div S754_nan x = S754_nan.
Proof. done. Qed.

(** X7: the diagnostic script's cosineSimilarity gives the same number for
    (a, b) and (b, a) when the vectors have the same length, and NaN when
    the second vector is shorter than the first (its missing components are
    [undefined]).  Behind getSimilarity's guards the similarity computed
    this way is therefore symmetric for all vectors, whether arrays of
    numbers or missing. *)
Theorem cosineSimilarity_symmetric :
  (forall a b, length a = length b ->
     Diagnose.cosineSimilarity a b = Diagnose.cosineSimilarity b a)
  /\ (forall a b, length b < length a ->
        is_nan (Diagnose.cosineSimilarity a b) = true)
  /\ (forall va vb : option (list float),
        getSimilarity Package.cosineSimilarity (Rag.vectorOf va) (Rag.vectorOf vb)
        = getSimilarity Package.cosineSimilarity (Rag.vectorOf vb) (Rag.vectorOf va)).
Proof.
  assert (forall a b, length a = length b ->
            Diagnose.cosineSimilarity a b = Diagnose.cosineSimilarity b a) as Hsym.
  { intros a b Hlen. unfold Diagnose.cosineSimilarity, Diagnose.dotProduct.
    by rewrite (dotFrom_comm a b _ Hlen),
      (float_mul_comm (Diagnose.magnitude a)). }
  split; [exact Hsym |]. split.
  - intros a b Hlen. apply is_nan_true.
    unfold Diagnose.cosineSimilarity, Diagnose.dotProduct.
    by rewrite FloatAxioms.div_spec, (dotFrom_short a b _ Hlen).
  - intros [a |] [b |]; try reflexivity. cbn [Rag.vectorOf].
    destruct (decide (length a = length b)) as [Hlen | Hlen].
    + rewrite !getSimilarity_library by (simpl; congruence).
      unfold Package.cosineSimilarity.
      rewrite (Hsym a b Hlen), <- Hlen, Nat.eqb_refl. done.
    + rewrite !getSimilarity_mismatch by (simpl; congruence). done.
Qed.

Lemma cosineSimilarity_symmetric_witness :
  Diagnose.cosineSimilarity [3; 4]%float [1; 0]%float
  = Diagnose.cosineSimilarity [1; 0]%float [3; 4]%float
  /\ is_nan (Diagnose.cosineSimilarity [1; 2]%float [1]%float) = true.
Proof.
  destruct cosineSimilarity_symmetric as (Hsym & Hnan & _).
  split; [apply Hsym; reflexivity | apply Hnan; simpl; lia].
Defined.

End DiagnoseFacts.

(** ** Further properties of the chunker *)

Section IngestMore.
Import JS Ingest.

(** How many windows a text of [len] characters is cut into. *)
Definition chunkCount (len size step : nat) : nat :=
  match len with
  | O => O
  | S _ => S ((len - size + step - 1) / step)
  end.

(** The window at position [i], [step] characters after the one before. *)
Definition windowAt (text : jsstring) (size step i : nat) : jsstring :=
  take size (drop (i * step) text).

Lemma count_step d step :
  0 < step -> 0 < d ->
  S ((d - step + step - 1) / step) = (d + step - 1) / step.
Proof.
  intros Hstep Hd. destruct (Nat.le_gt_cases step d) as [Hge | Hlt].
  - replace (d - step + step - 1) with (d - 1) by lia.
    replace (d + step - 1) with (d - 1 + 1 * step) by lia.
    rewrite Nat.div_add by lia. lia.
  - replace (d - step + step - 1) with (step - 1) by lia.
    rewrite (Nat.div_small (step - 1)) by lia.
    apply (Nat.div_unique _ _ _ (d - 1)); lia.
Qed.

Lemma windowLoop_closed text (size overlap : nat) :
  0 < overlap < size ->
  forall fuel start,
    start < length text ->
    length text - start < fuel ->
    windowLoop fuel text (Z.of_nat size) (Z.of_nat overlap) (Z.of_nat start) []
    = Some (map (fun i => take size (drop (start + i * (size - overlap)) text))
              (seq 0 (S ((length text - start - size + (size - overlap) - 1)
                         / (size - overlap))))).
Proof.
  intros Hpar. induction fuel as [| fuel IH]; intros start Hin Hfuel; [lia |].
  simpl windowLoop.
  destruct (Z.ltb_spec (Z.of_nat start) (Z.of_nat (length text))); [| lia].
  destruct (Nat.le_gt_cases (length text) (start + size)) as [Hlast | Hmore].
  - rewrite Z.min_r by lia. rewrite Z.eqb_refl.
    rewrite slice_nat by lia.
    replace (length text - start - size) with 0 by lia.
    rewrite (Nat.div_small (0 + (size - overlap) - 1)) by lia.
    simpl. rewrite Nat.add_0_r.
    by rewrite !take_ge by (rewrite length_drop; lia).
  - rewrite Z.min_l by lia.
    destruct (Z.eqb_spec (Z.of_nat start + Z.of_nat size) (Z.of_nat (length text))); [lia |].
    replace (Z.of_nat start + (Z.of_nat size - Z.of_nat overlap))%Z
      with (Z.of_nat (start + (size - overlap))) by lia.
    replace (Z.of_nat start + Z.of_nat size)%Z with (Z.of_nat (start + size)) by lia.
    rewrite slice_nat by lia.
    rewrite windowLoop_acc, IH by lia.
    rewrite <- (count_step (length text - start - size) (size - overlap)) by lia.
    replace (length text - (start + (size - overlap)) - size)
      with (length text - start - size - (size - overlap)) by lia.
    generalize ((length text - start - size - (size - overlap)
                 + (size - overlap) - 1) / (size - overlap)).
    intros m. change (seq 0 (S (S m))) with (0 :: seq 1 (S m)).
    rewrite <- (seq_shift (S m) 0), map_cons, map_map.
    generalize (seq 0 (S m)). intros l. simpl.
    replace (start + size - start) with size by lia.
    rewrite Nat.add_0_r. do 2 f_equal.
    apply map_ext. intros i. do 2 f_equal. lia.
Qed.

Lemma chunkWindows_closed text (size overlap : nat) :
  0 < overlap < size ->
  chunkWindows (S (length text)) text (Z.of_nat size) (Z.of_nat overlap)
  = Some (map (windowAt text size (size - overlap))
            (seq 0 (chunkCount (length text) size (size - overlap)))).
Proof.
  intros Hpar. unfold chunkWindows, chunkCount.
  destruct (length text) as [| n] eqn:Elen.
  - by destruct text.
  - rewrite <- Elen. change 0%Z with (Z.of_nat 0).
    rewrite windowLoop_closed by lia.
    rewrite Nat.sub_0_r. done.
Qed.

Lemma trimStart_length s : length (trimStart s) <= length s.
Proof.
  induction s as [| c s IH]; simpl; [done |].
  destruct (isWhiteSpace c); simpl; lia.
Qed.

Lemma trim_length s : length (trim s) <= length s.
Proof.
  unfold trim, trimEnd. rewrite length_rev.
  etrans; [apply trimStart_length |]. rewrite length_rev.
  apply trimStart_length.
Qed.

(** X8: for [0 < overlap < size], chunkText cuts a text of [len] characters
    into [1 + ceil((len - size) / (size - overlap))] chunks (one chunk when
    the text fits in [size]; none for the empty text); chunk [i] is the
    window of [size] characters starting at [i * (size - overlap)], clipped
    to the text and trimmed; and no chunk is longer than [size]. *)
Theorem chunkText_closed_form (text : jsstring) (size overlap : Z) :
  (0 < overlap < size)%Z ->
  let sz := Z.to_nat size in
  let step := Z.to_nat (size - overlap) in
  let chunks :=
    map (fun i => trim (windowAt text sz step i))
        (seq 0 (chunkCount (length text) sz step)) in
  chunkText (S (length text)) text size overlap = Some (Normal chunks)
  /\ length chunks = chunkCount (length text) sz step
  /\ Forall (fun chunk => length chunk <= sz) chunks
  /\ (length text <= sz -> chunks = match text with [] => [] | _ => [trim text] end).
Proof.
  intros Hpar sz step chunks.
  assert (step = sz - Z.to_nat overlap) as Hstep by (unfold step, sz; lia).
  split; [| split; [| split]].
  - rewrite <- (Z2Nat.id size), <- (Z2Nat.id overlap) by lia.
    erewrite chunkText_of_windows; [| apply chunkWindows_closed; lia].
    fold sz. rewrite <- Hstep. by rewrite map_map.
  - unfold chunks. by rewrite length_map, length_seq.
  - apply List.Forall_map, Forall_forall. intros i _.
    etrans; [apply trim_length |]. unfold windowAt.
    rewrite length_take. lia.
  - intros Hfit. unfold chunks, chunkCount.
    destruct text as [| c text']; [done |].
    remember (c :: text') as text.
    assert (length text = S (length text')) as -> by (by subst).
    replace (S (length text') - sz) with 0 by (subst; simpl in *; lia).
    rewrite (Nat.div_small (0 + step - 1)) by lia.
    simpl. unfold windowAt. simpl. rewrite drop_0, take_ge by lia. by subst.
Qed.

Lemma chunkText_closed_form_witness :
  chunkText 11 (lit "0123456789") 4 1
  = Some (Normal [lit "0123"; lit "3456"; lit "6789"]).
Proof.
  destruct (chunkText_closed_form (lit "0123456789") 4 1) as (Hrun & _); [lia |].
  exact Hrun.
Defined.

End IngestMore.

(** ** scripts/ingest.js: the ingestion run *)

Module IngestScript.
Import JS Ingest.

(** An entry of [docs.json]. *)
Record Document := mkDocument {
  id : jsstring;
  title : jsstring;
  content : jsstring
}.

(** The loop variables of [ingest], with the embedding calls made so far and
    the number of 100 ms pauses taken. *)
Record IngestState := mkIngestState {
  vectorStore : list VectorMath.EmbeddedChunk;
  chunkIndex : nat;
  calls : list Rag.Call;
  pauses : nat
}.

(** Whether the loops go on, or [process.exit(1)] has ended the process. *)
Inductive Step :=
  | Continue (st : IngestState)
  | Exit (st : IngestState).

(** How the process ends: with exit code 1, or after writing the vector
    store to [data/vector_store.json]. *)
Inductive IngestEnd :=
  | Exited (code : nat)
  | Wrote (store : list VectorMath.EmbeddedChunk).

Definition initialState : IngestState :=
  {| vectorStore := []; chunkIndex := 0; calls := []; pauses := 0 |}.

Section WithProvider.

Variable provider : Rag.Provider.
(** [docs.length] *)
Variable docsLength : nat.

(** The inner loop [for (let i = 0; i < chunks.length; i++)], from index [i]
    on.  An embedding call that throws exits at once; one whose [values] are
    missing still pushes its record before the log line's
    [embedding.length] throws into the same [catch]. *)
Fixpoint embedChunks (doc : Document) (chunks : list jsstring) (i : nat)
    (st : IngestState) : Step :=
  match chunks with
  | [] => Continue st
  | chunkContent :: rest =>
      let record embedding :=
        {| VectorMath.id := id doc ++ lit "-chunk-" ++ decimal (N.of_nat (i + 1));
           VectorMath.docId := id doc;
           VectorMath.title := title doc;
           VectorMath.chunkIndex := i;
           VectorMath.content := chunkContent;
           VectorMath.embedding := embedding |} in
      let calls' := calls st ++ [Rag.EmbedContent chunkContent] in
      match Rag.embedContent provider (calls st) chunkContent with
      | Normal (Some embedding) =>
          let chunkIndex' := S (chunkIndex st) in
          embedChunks doc rest (S i)
            {| vectorStore := vectorStore st ++ [record (VectorMath.Numbers embedding)];
               chunkIndex := chunkIndex';
               calls := calls';
               pauses := if (chunkIndex' <? docsLength * 2)%nat
                         then S (pauses st) else pauses st |}
      | Normal None =>
          Exit {| vectorStore := vectorStore st ++ [record VectorMath.Absent];
                  chunkIndex := S (chunkIndex st);
                  calls := calls';
                  pauses := pauses st |}
      | Throw _ =>
          Exit {| vectorStore := vectorStore st;
                  chunkIndex := chunkIndex st;
                  calls := calls';
                  pauses := pauses st |}
      end
  end.

(** [chunkText(doc.content)] with the default sizes, given the iterations
    that always suffice for them. *)
Definition chunksOf (text : jsstring) : option (list jsstring) :=
  match chunkText (S (length text)) text CHUNK_SIZE_CHARS CHUNK_OVERLAP_CHARS with
  | Some (Normal chunks) => Some chunks
  | _ => None
  end.

(** The outer loop [for (const doc of docs)]; [None] if [chunkText] were
    still running. *)
Fixpoint ingestDocs (docs : list Document) (st : IngestState) : option Step :=
  match docs with
  | [] => Some (Continue st)
  | doc :: rest =>
      match chunksOf (content doc) with
      | Some chunks =>
          match embedChunks doc chunks 0 st with
          | Continue st' => ingestDocs rest st'
          | Exit st' => Some (Exit st')
          end
      | None => None
      end
  end.

End WithProvider.

(** [ingest()]: [apiKey] is [process.env.GEMINI_API_KEY], [docs] the parsed
    [docs.json]. *)
Definition ingest (provider : Rag.Provider) (apiKey : option jsstring)
    (docs : list Document) : option (IngestEnd * IngestState) :=
  match apiKey with
  | None | Some [] => Some (Exited 1, initialState)
  | Some (_ :: _) =>
      match ingestDocs provider (length docs) docs initialState with
      | Some (Continue st) => Some (Wrote (vectorStore st), st)
      | Some (Exit st) => Some (Exited 1, st)
      | None => None
      end
  end.

End IngestScript.

(** ** Properties of the ingestion run *)

Section IngestScriptFacts.
Import JS Ingest VectorMath Rag.

(** The embedding call made for a record. *)
Definition embedCallOf (r : EmbeddedChunk) : Call := EmbedContent (content r).

(** A record without its embedding. *)
Definition describe (r : EmbeddedChunk)
    : jsstring * jsstring * jsstring * nat * jsstring :=
  (id r, docId r, title r, chunkIndex r, content r).

(** The records a document contributes, from chunk index [i0] on. *)
Definition recordsFrom (doc : IngestScript.Document) (i0 : nat)
    (chunks : list jsstring) : list (jsstring * jsstring * jsstring * nat * jsstring) :=
  mapi_from
    (fun chunk i =>
       (IngestScript.id doc ++ lit "-chunk-" ++ decimal (N.of_nat (i + 1)),
        IngestScript.id doc, IngestScript.title doc, i, chunk))
    i0 chunks.

(** The chunks of a text under the default sizes: windows of 1500
    characters, 1300 apart, trimmed. *)
Definition defaultChunks (text : jsstring) : list jsstring :=
  map (fun i => trim (windowAt text 1500 1300 i))
      (seq 0 (chunkCount (length text) 1500 1300)).

Definition recordsOf (doc : IngestScript.Document)
    : list (jsstring * jsstring * jsstring * nat * jsstring) :=
  recordsFrom doc 0 (defaultChunks (IngestScript.content doc)).

(** Every record so far comes from one successful embedding call, made in
    order on the record's content. *)
Definition Sound (provider : Provider) (st : IngestScript.IngestState) : Prop :=
  IngestScript.calls st = map embedCallOf (IngestScript.vectorStore st)
  /\ IngestScript.chunkIndex st = length (IngestScript.vectorStore st)
  /\ forall j r, IngestScript.vectorStore st !! j = Some r ->
       exists v, embedding r = Numbers v
         /\ embedContent provider (take j (IngestScript.calls st)) (content r)
            = Normal (Some v).

(** The last call made is an embedding call that did not yield a vector. *)
Definition FailedAtLast (provider : Provider) (st : IngestScript.IngestState) : Prop :=
  exists pre text,
    IngestScript.calls st = pre ++ [EmbedContent text]
    /\ forall v, embedContent provider pre text <> Normal (Some v).

Definition Paced (docsLength : nat) (st : IngestScript.IngestState) : Prop :=
  IngestScript.pauses st = Nat.min (IngestScript.chunkIndex st) (2 * docsLength - 1).

Lemma chunksOf_default text :
  IngestScript.chunksOf text = Some (defaultChunks text).
Proof.
  unfold IngestScript.chunksOf, defaultChunks.
  change CHUNK_SIZE_CHARS with (Z.of_nat 1500).
  change CHUNK_OVERLAP_CHARS with (Z.of_nat 200).
  erewrite chunkText_of_windows; [| apply chunkWindows_closed; lia].
  by rewrite map_map.
Qed.

Lemma Sound_push provider st r v :
  Sound provider st ->
  embedContent provider (IngestScript.calls st) (content r) = Normal (Some v) ->
  embedding r = Numbers v ->
  forall k p,
  Sound provider
    (IngestScript.mkIngestState (IngestScript.vectorStore st ++ [r])
       (S (IngestScript.chunkIndex st))
       (IngestScript.calls st ++ [EmbedContent (content r)]) p)
  /\ (Paced k st ->
      p = (if S (IngestScript.chunkIndex st) <? k * 2
           then S (IngestScript.pauses st) else IngestScript.pauses st) ->
      Paced k
        (IngestScript.mkIngestState (IngestScript.vectorStore st ++ [r])
           (S (IngestScript.chunkIndex st))
           (IngestScript.calls st ++ [EmbedContent (content r)]) p)).
Proof.
  intros (Hcalls & Hidx & Hrec) E Hv k p. split.
  - unfold Sound.
    cbn [IngestScript.vectorStore IngestScript.calls IngestScript.chunkIndex].
    split; [| split].
    + by rewrite map_app, Hcalls.
    + rewrite length_app. simpl. lia.
    + intros j r' Hj.
      assert (length (IngestScript.calls st)
              = length (IngestScript.vectorStore st)) as Hlen
        by (by rewrite Hcalls, length_map).
      destruct (decide (j < length (IngestScript.vectorStore st))) as [Hlt | Hge].
      * rewrite lookup_app_l in Hj by done.
        rewrite take_app_le by lia. by apply Hrec.
      * rewrite lookup_app_r in Hj by lia.
        destruct (j - length (IngestScript.vectorStore st)) as [| j'] eqn:Ej;
          [| done].
        simplify_eq/=.
        replace j with (length (IngestScript.calls st)) by lia.
        rewrite take_app_length. eauto.
  - unfold Paced.
    cbn [IngestScript.pauses IngestScript.chunkIndex]. intros Hpaced ->.
    rewrite Hpaced.
    destruct (Nat.ltb_spec (S (IngestScript.chunkIndex st)) (k * 2)); lia.
Qed.

Lemma embedChunks_inv provider n doc chunks : forall i st,
  Sound provider st -> Paced n st ->
  match IngestScript.embedChunks provider n doc chunks i st with
  | IngestScript.Continue st' =>
      Sound provider st' /\ Paced n st'
      /\ map describe (IngestScript.vectorStore st')
         = map describe (IngestScript.vectorStore st) ++ recordsFrom doc i chunks
  | IngestScript.Exit st' => FailedAtLast provider st'
  end.
Proof.
  induction chunks as [| chunk rest IH]; intros i st Hsound Hpaced.
  - simpl. by rewrite app_nil_r.
  - cbn [IngestScript.embedChunks].
    destruct (embedContent provider (IngestScript.calls st) chunk)
      as [[v |] | e] eqn:E.
    + match goal with |- context [IngestScript.embedChunks _ _ _ _ _ ?s] =>
        specialize (IH (S i) s);
        match s with IngestScript.mkIngestState (_ ++ [?r]) _ _ ?p =>
          destruct (Sound_push provider st r v Hsound E eq_refl n p) as [Hs Hp]
        end
      end.
      specialize (IH Hs (Hp Hpaced eq_refl)).
      destruct (IngestScript.embedChunks _ _ _ _ _ _) as [st' | st']; [| done].
      destruct IH as (Hs' & Hp' & Hd').
      split; [done |]. split; [done |].
      rewrite Hd'. cbn [IngestScript.vectorStore].
      rewrite map_app. simpl. by rewrite <- app_assoc.
    + exists (IngestScript.calls st), chunk. split; [done |].
      intros v. by rewrite E.
    + exists (IngestScript.calls st), chunk. split; [done |].
      intros v. by rewrite E.
Qed.

Lemma ingestDocs_inv provider n docs : forall st,
  Sound provider st -> Paced n st ->
  match IngestScript.ingestDocs provider n docs st with
  | Some (IngestScript.Continue st') =>
      Sound provider st' /\ Paced n st'
      /\ map describe (IngestScript.vectorStore st')
         = map describe (IngestScript.vectorStore st) ++ concat (map recordsOf docs)
  | Some (IngestScript.Exit st') => FailedAtLast provider st'
  | None => False
  end.
Proof.
  induction docs as [| doc rest IH]; intros st Hsound Hpaced.
  - simpl. by rewrite app_nil_r.
  - cbn [IngestScript.ingestDocs]. rewrite chunksOf_default.
    pose proof (embedChunks_inv provider n doc
                  (defaultChunks (IngestScript.content doc)) 0 st Hsound Hpaced) as Hin.
    destruct (IngestScript.embedChunks _ _ _ _ _ _) as [st' | st']; [| done].
    destruct Hin as (Hs' & Hp' & Hd').
    specialize (IH st' Hs' Hp').
    destruct (IngestScript.ingestDocs provider n rest st') as [[st'' | st''] |];
      [| done | done].
    destruct IH as (Hs'' & Hp'' & Hd'').
    split; [done |]. split; [done |].
    rewrite Hd'', Hd'. simpl. by rewrite <- app_assoc.
Qed.

Lemma initialState_sound provider n :
  Sound provider IngestScript.initialState /\ Paced n IngestScript.initialState.
Proof.
  split.
  - split; [done |]. split; [done |]. intros j r Hj. by destruct j.
  - unfold Paced. simpl. lia.
Qed.

Lemma ingest_run provider apiKey docs :
  match IngestScript.ingest provider apiKey docs with
  | Some (IngestScript.Wrote store, st) =>
      (exists key, apiKey = Some key /\ key <> [])
      /\ store = IngestScript.vectorStore st
      /\ Sound provider st /\ Paced (length docs) st
      /\ map describe store = concat (map recordsOf docs)
  | Some (IngestScript.Exited code, st) =>
      code = 1
      /\ match apiKey with
         | None | Some [] => IngestScript.calls st = []
         | Some (_ :: _) => FailedAtLast provider st
         end
  | None => False
  end.
Proof.
  destruct apiKey as [[| c key] |]; cbn [IngestScript.ingest].
  - done.
  - destruct (initialState_sound provider (length docs)) as [Hs Hp].
    pose proof (ingestDocs_inv provider (length docs) docs _ Hs Hp) as Hrun.
    destruct (IngestScript.ingestDocs _ _ _ _) as [[st | st] |]; [| | done].
    + destruct Hrun as (Hs' & Hp' & Hd'). split; [by exists (c :: key) | done].
    + done.
  - done.
Qed.

Lemma mapi_from_seq {A B} (f : A -> nat -> B) (g : nat -> A) n : forall i0,
  mapi_from f i0 (map g (seq i0 n)) = map (fun i => f (g i) i) (seq i0 n).
Proof.
  induction n as [| n IH]; intros i0; [done |].
  cbn [seq map mapi_from]. by rewrite IH.
Qed.

(** X9: the ingestion run always ends, and is all-or-nothing.  Without
    an API key it exits with code 1 before any embedding call.  With one,
    either it exits with code 1 right after an embedding call that threw or
    returned no vector (the last call made), writing nothing; or it writes
    the store, and then the calls made are exactly one embedding call per
    stored record, in store order, on the record's content, each of which
    returned the vector stored in that record. *)
Theorem ingest_all_or_nothing (provider : Provider) (apiKey : option jsstring)
    (docs : list IngestScript.Document) :
  exists outcome st,
    IngestScript.ingest provider apiKey docs = Some (outcome, st)
    /\ match outcome with
       | IngestScript.Wrote store =>
           (exists key, apiKey = Some key /\ key <> [])
           /\ IngestScript.calls st = map embedCallOf store
           /\ forall j r, store !! j = Some r ->
                exists v, embedding r = Numbers v
                  /\ embedContent provider (take j (IngestScript.calls st)) (content r)
                     = Normal (Some v)
       | IngestScript.Exited code =>
           code = 1
           /\ match apiKey with
              | None | Some [] => IngestScript.calls st = []
              | Some (_ :: _) =>
                  exists pre text,
                    IngestScript.calls st = pre ++ [EmbedContent text]
                    /\ forall v, embedContent provider pre text <> Normal (Some v)
              end
       end.
Proof.
  pose proof (ingest_run provider apiKey docs) as Hrun.
  destruct (IngestScript.ingest _ _ _) as [[[code | store] st] |]; [| | done].
  - exists (IngestScript.Exited code), st. split; [done |]. apply Hrun.
  - exists (IngestScript.Wrote store), st. split; [done |].
    destruct Hrun as (Hkey & -> & (Hcalls & _ & Hrec) & _ & _).
    split; [done |]. split; [done |].
    intros j r Hj. apply (Hrec j r Hj).
Qed.

(** X10: the layout of a written store.  Leaving the embeddings aside, the
    store is the concatenation, in document order, of each document's
    records; the record at position i of a document has id
    <doc.id>-chunk-<i+1>, the document's id and title, chunkIndex i, and as
    content the trimmed window of 1500 characters starting at character
    1300 * i of the document's content. *)
Theorem ingest_store_layout (provider : Provider) (apiKey : option jsstring)
    (docs : list IngestScript.Document) (store : list EmbeddedChunk)
    (st : IngestScript.IngestState) :
  IngestScript.ingest provider apiKey docs = Some (IngestScript.Wrote store, st) ->
  map describe store
  = concat (map (fun doc =>
      map (fun i =>
             (IngestScript.id doc ++ lit "-chunk-" ++ decimal (N.of_nat (i + 1)),
              IngestScript.id doc, IngestScript.title doc, i,
              trim (windowAt (IngestScript.content doc) 1500 1300 i)))
          (seq 0 (chunkCount (length (IngestScript.content doc)) 1500 1300)))
      docs).
Proof.
  intros Hrun. pose proof (ingest_run provider apiKey docs) as Hinv.
  rewrite Hrun in Hinv. destruct Hinv as (_ & _ & _ & _ & ->).
  f_equal. apply map_ext. intros doc.
  unfold recordsOf, recordsFrom, defaultChunks. by rewrite mapi_from_seq.
Qed.

Definition sampleDocs : list IngestScript.Document :=
  [IngestScript.mkDocument (lit "d1") (lit "Billing") (lit " pay by card ");
   IngestScript.mkDocument (lit "d2") (lit "Empty") (lit "")].

Lemma ingest_store_layout_witness :
  exists store st,
    IngestScript.ingest silentProvider (Some (lit "key")) sampleDocs
    = Some (IngestScript.Wrote store, st)
    /\ map describe store
       = [(lit "d1-chunk-1", lit "d1", lit "Billing", 0, lit "pay by card")].
Proof.
  eexists _, _. split; [vm_compute; reflexivity |].
  rewrite (ingest_store_layout silentProvider (Some (lit "key")) sampleDocs _ _
             ltac:(vm_compute; reflexivity)).
  vm_compute. reflexivity.
Defined.

(** X11: pacing.  A run that writes its store has paused after every
    successful embedding while fewer than twice as many chunks as there are
    documents had been embedded: the number of pauses is the smaller of the
    number of stored chunks and 2 * docs.length - 1. *)
Theorem ingest_pauses (provider : Provider) (apiKey : option jsstring)
    (docs : list IngestScript.Document) (store : list EmbeddedChunk)
    (st : IngestScript.IngestState) :
  IngestScript.ingest provider apiKey docs = Some (IngestScript.Wrote store, st) ->
  IngestScript.pauses st = Nat.min (length store) (2 * length docs - 1).
Proof.
  intros Hrun. pose proof (ingest_run provider apiKey docs) as Hinv.
  rewrite Hrun in Hinv. destruct Hinv as (_ & -> & (_ & Hidx & _) & Hp & _).
  unfold Paced in Hp. by rewrite Hp, Hidx.
Qed.

Definition longDoc : IngestScript.Document :=
  IngestScript.mkDocument (lit "d3") (lit "Long") (repeat 97%N 3000).

Lemma ingest_pauses_witness :
  exists store st,
    IngestScript.ingest silentProvider (Some (lit "key")) [longDoc]
    = Some (IngestScript.Wrote store, st)
    /\ length store = 3 /\ IngestScript.pauses st = 1.
Proof.
  eexists _, _. split; [vm_compute; reflexivity |]. split; [vm_compute; reflexivity |].
  rewrite (ingest_pauses silentProvider (Some (lit "key")) [longDoc] _ _
             ltac:(vm_compute; reflexivity)).
  vm_compute. reflexivity.
Defined.

(** X12: ingestion composed with retrieval.  Whatever retrieveTopK
    returns from a store written by the ingestion run is a chunk of one of
    the ingested documents: it carries that document's title, its content
    is the trimmed window of 1500 characters at 1300 * i of the document's
    content, so at most 1500 characters long, and its id is
    <doc.id>-chunk-<i+1>. *)
Theorem retrieved_chunk_of_document cs (provider : Provider)
    (apiKey : option jsstring) (docs : list IngestScript.Document)
    (store : list EmbeddedChunk) (st : IngestScript.IngestState)
    (q : Vector) (k : nat) (t : float) (result : list ScoredChunk)
    (c : ScoredChunk) :
  IngestScript.ingest provider apiKey docs = Some (IngestScript.Wrote store, st) ->
  retrieveTopK cs q store k t = Normal result ->
  c ∈ result ->
  exists doc i,
    doc ∈ docs
    /\ i < chunkCount (length (IngestScript.content doc)) 1500 1300
    /\ s_id c = IngestScript.id doc ++ lit "-chunk-" ++ decimal (N.of_nat (i + 1))
    /\ s_title c = IngestScript.title doc
    /\ s_content c = trim (windowAt (IngestScript.content doc) 1500 1300 i)
    /\ length (s_content c) <= 1500.
Proof.
  intros Hrun Hret Hc. pose proof (ingest_run provider apiKey docs) as Hinv.
  rewrite Hrun in Hinv. destruct Hinv as (_ & _ & _ & _ & Hlayout).
  destruct (retrieveTopK_elem _ _ _ _ _ _ _ Hret Hc) as (_ & d & Hd & _ & ->).
  assert (describe d ∈ map describe store) as Hin
    by (apply list_elem_of_In, in_map, list_elem_of_In, Hd).
  rewrite Hlayout in Hin.
  apply list_elem_of_In, in_concat in Hin as (recs & Hrecs & Hin).
  apply in_map_iff in Hrecs as (doc & <- & Hdoc).
  unfold recordsOf, recordsFrom, defaultChunks in Hin.
  rewrite mapi_from_seq in Hin.
  apply in_map_iff in Hin as (i & Hdesc & Hi). apply in_seq in Hi.
  pose proof (f_equal (fun x => fst (fst (fst (fst x)))) Hdesc) as Hid.
  pose proof (f_equal (fun x => snd (fst (fst x))) Hdesc) as Htitle.
  pose proof (f_equal snd Hdesc) as Hcontent.
  cbn [fst snd describe] in Hid, Htitle, Hcontent.
  exists doc, i. cbn [scoredAs s_id s_title s_content].
  rewrite <- Hid, <- Htitle, <- Hcontent.
  split; [by apply list_elem_of_In |]. split; [lia |].
  repeat split; try done.
  etrans; [apply trim_length |]. unfold windowAt. rewrite length_take. lia.
Qed.

Lemma retrieved_chunk_of_document_witness :
  exists doc i,
    doc ∈ sampleDocs
    /\ i < chunkCount (length (IngestScript.content doc)) 1500 1300
    /\ lit "d1-chunk-1"
       = IngestScript.id doc ++ lit "-chunk-" ++ decimal (N.of_nat (i + 1))
    /\ lit "Billing" = IngestScript.title doc
    /\ lit "pay by card" = trim (windowAt (IngestScript.content doc) 1500 1300 i)
    /\ length (lit "pay by card") <= 1500.
Proof.
  apply (retrieved_chunk_of_document Package.cosineSimilarity silentProvider
           (Some (lit "key")) sampleDocs
           [{| id := lit "d1-chunk-1"; docId := lit "d1"; title := lit "Billing";
               chunkIndex := 0; content := lit "pay by card";
               embedding := Numbers [0; 1]%float |}]
           {| IngestScript.vectorStore :=
                [{| id := lit "d1-chunk-1"; docId := lit "d1"; title := lit "Billing";
                    chunkIndex := 0; content := lit "pay by card";
                    embedding := Numbers [0; 1]%float |}];
              IngestScript.chunkIndex := 1;
              IngestScript.calls := [EmbedContent (lit "pay by card")];
              IngestScript.pauses := 1 |}
           (Numbers [0; 1]%float) 3 0.65%float
           [{| s_id := lit "d1-chunk-1"; s_title := lit "Billing";
               s_content := lit "pay by card"; score := Some 1%float |}]
           {| s_id := lit "d1-chunk-1"; s_title := lit "Billing";
              s_content := lit "pay by card"; score := Some 1%float |}).
  - vm_compute. reflexivity.
  - vm_compute. reflexivity.
  - apply list_elem_of_here.
Defined.

End IngestScriptFacts.

(** ** More on the pipeline *)

Section RagMore.
Import JS VectorMath SessionStore Rag.

Lemma passing_length (scored : list ScoredChunk) t :
  length (passing scored t) <= length scored.
Proof. unfold passing. apply length_filter. Qed.

Lemma retrieveTopK_nonempty cs q (docs : list EmbeddedChunk) k t d s result :
  0 < k -> d ∈ docs ->
  getSimilarity cs q (embedding d) = Normal s ->
  (t <=? toNumber s)%float = true ->
  retrieveTopK cs q docs k t = Normal result ->
  result <> [].
Proof.
  intros Hk Hd Hs Ht Hrun Hnil.
  apply retrieveTopK_returns in Hrun as (scored & Hscored & ->).
  apply (f_equal length) in Hnil.
  rewrite length_take, sort_perm in Hnil. simpl in Hnil.
  pose proof (passing_elem cs q docs scored t d s Hscored Hd Hs Ht) as Hin.
  destruct (passing scored t); [by apply elem_of_nil in Hin | simpl in Hnil; lia].
Qed.

(** Every score is a number. *)
Definition numbered (c : ScoredChunk) : bool :=
  match score c with
  | Some _ => true
  | None => false
  end.

Lemma scoreEntries : forall top : list ScoredChunk,
  mapThrowing scoreEntry top
  = if forallb numbered top
    then Normal (map (fun c => {| sc_title := s_title c;
                                  sc_score := parseFloat (toFixed (toNumber (score c)) 4) |})
                     top)
    else Throw NULL_TO_FIXED.
Proof.
  induction top as [| c top IH]; [done |].
  cbn [mapThrowing forallb map]. unfold scoreEntry at 1, numbered at 1.
  destruct (score c) as [x |]; [| done].
  rewrite IH. cbn [andb]. by destruct (forallb numbered top).
Qed.

(** The pipeline, unfolded on the outcome of its calls. *)
Lemma runRAGPipeline_unfold cs provider msg store history t calls :
  runRAGPipeline cs provider msg store history t calls
  = match embedContent provider calls msg with
    | Throw e => (Throw (lit "Embedding API error: " ++ e), calls ++ [EmbedContent msg])
    | Normal q =>
        match retrieveTopK cs (vectorOf q) store TOP_K_RESULTS t with
        | Throw e => (Throw e, calls ++ [EmbedContent msg])
        | Normal [] => (Normal fallbackResult, calls ++ [EmbedContent msg])
        | Normal top =>
            let prompt := buildPrompt top history msg in
            let calls' := calls ++ [EmbedContent msg; GenerateContent prompt] in
            match generateContent provider (calls ++ [EmbedContent msg]) prompt with
            | Throw e => (Throw (lit "LLM API error: " ++ e), calls')
            | Normal response =>
                match text response with
                | Throw e => (Throw e, calls')
                | Normal r =>
                    match mapThrowing scoreEntry top with
                    | Throw e => (Throw e, calls')
                    | Normal entries =>
                        (Normal
                           {| reply := r;
                              tokensUsed :=
                                match usageMetadata response with
                                | Some u => (orZero (promptTokenCount u)
                                             + orZero (candidatesTokenCount u))%N
                                | None => 0%N
                                end;
                              retrievedChunks := length top;
                              scores := entries;
                              fallback := false |}, calls')
                    end
                end
            end
        end
    end.
Proof.
  unfold runRAGPipeline, bind, tryCatch, callEmbed, callGenerate, complete, throw, ret.
  destruct (embedContent provider calls msg) as [q | e]; [| done].
  destruct (retrieveTopK cs (vectorOf q) store TOP_K_RESULTS t)
    as [[| c top] | e] eqn:Etop; [done | | done].
  cbn [length Nat.eqb]. cbv zeta. rewrite <- app_assoc. cbn [app].
  destruct (generateContent _ _ _) as [response | e]; [| done].
  destruct (text response) as [r | e]; [| done].
  by destruct (mapThrowing scoreEntry (c :: top)).
Qed.

(** X13: the shape of every result the pipeline returns.  At most three
    chunks are retrieved, and never more than the store holds; there is one
    score entry per retrieved chunk; the result is the fallback exactly when
    nothing was retrieved.  A fallback result carries the fixed fallback
    reply and zero tokens and cost one provider call, the embedding of the
    message; any other result cost exactly two, the embedding and then one
    generation call. *)
Theorem runRAGPipeline_result_shape cs (provider : Provider) (userMessage : jsstring)
    (vectorStore : list EmbeddedChunk) (history : list Message) (threshold : float)
    (calls calls' : list Call) (result : RAGResult) :
  runRAGPipeline cs provider userMessage vectorStore history threshold calls
  = (Normal result, calls') ->
  retrievedChunks result <= 3
  /\ retrievedChunks result <= length vectorStore
  /\ length (scores result) = retrievedChunks result
  /\ fallback result = (retrievedChunks result =? 0)
  /\ if fallback result
     then reply result = FALLBACK_REPLY /\ tokensUsed result = 0%N
          /\ calls' = calls ++ [EmbedContent userMessage]
     else exists prompt,
          calls' = calls ++ [EmbedContent userMessage; GenerateContent prompt].
Proof.
  rewrite runRAGPipeline_unfold.
  destruct (embedContent provider calls userMessage) as [q | e]; [| done].
  destruct (retrieveTopK cs (vectorOf q) vectorStore TOP_K_RESULTS threshold)
    as [top | e] eqn:Hrun; [| done].
  destruct (retrieveTopK_returns _ _ _ _ _ _ Hrun) as (scored & Hscored & Htop).
  pose proof (f_equal length Htop) as Hlen.
  rewrite length_take, sort_perm in Hlen.
  pose proof (passing_length scored threshold) as Hpass.
  pose proof (mapThrowing_length _ _ _ Hscored) as Hstore.
  unfold TOP_K_RESULTS in Hlen.
  destruct top as [| c top].
  - intros [= <- <-]. simpl. repeat split; lia.
  - cbv zeta.
    destruct (generateContent _ _ _) as [response | e]; [| done].
    destruct (text response) as [r | e]; [| done].
    destruct (mapThrowing scoreEntry (c :: top)) as [entries | e] eqn:Hentries;
      [| done].
    intros [= <- <-]. cbn [retrievedChunks scores fallback].
    apply mapThrowing_length in Hentries. cbn [length] in *.
    split; [lia |]. split; [lia |]. split; [done |].
    split; [done |]. eauto.
Qed.

Definition answeringProvider : Provider :=
  {| embedContent := fun _ _ => Normal (Some [0; 1]%float);
     generateContent := fun _ _ =>
       Normal {| text := Normal (lit "Pay by card.");
                 usageMetadata := Some (mkUsage (Some 40%N) None) |} |}.

Lemma runRAGPipeline_result_shape_witness :
  exists result calls',
    runRAGPipeline Package.cosineSimilarity answeringProvider (lit "bill info")
      [chunkOf "A" [1; 0]%float; chunkOf "B" [0; 2]%float] [] 0.65%float []
    = (Normal result, calls')
    /\ retrievedChunks result = 1 /\ length (scores result) = 1
    /\ fallback result = false /\ tokensUsed result = 40%N.
Proof.
  eexists _, _. split; [vm_compute; reflexivity |].
  destruct (runRAGPipeline_result_shape Package.cosineSimilarity answeringProvider
              (lit "bill info") [chunkOf "A" [1; 0]%float; chunkOf "B" [0; 2]%float]
              [] 0.65%float [] _ _ ltac:(vm_compute; reflexivity))
    as (_ & _ & Hs & Hf & _).
  split; [reflexivity |]. split; [exact Hs |]. split; [exact Hf | reflexivity].
Defined.

(** X14: the grounded path.  When the embedding call yields a query vector,
    ranking the store returns, and some stored chunk reaches the threshold,
    retrieval is not empty and the pipeline makes exactly one generation
    call, after the embedding call, on the prompt built from the retrieved
    chunks, the history it was given and the message.  It throws the
    provider's message prefixed with [LLM API error: ] when that call
    throws and rethrows unchanged what [text()] throws.  Otherwise, when
    every retrieved score is a number, it returns a non-fallback result
    whose reply is the generated text and whose scores list the retrieved
    titles in retrieval order; when a retrieved score is [null], it throws
    the TypeError of [toFixed], after the generation call has been made. *)
Theorem runRAGPipeline_grounded cs (provider : Provider) (userMessage : jsstring)
    (vectorStore : list EmbeddedChunk) (history : list Message) (threshold : float)
    (calls : list Call) (queryVector : option (list float)) (d : EmbeddedChunk)
    (s : option float) (top : list ScoredChunk) :
  embedContent provider calls userMessage = Normal queryVector ->
  retrieveTopK cs (vectorOf queryVector) vectorStore TOP_K_RESULTS threshold
  = Normal top ->
  d ∈ vectorStore ->
  getSimilarity cs (vectorOf queryVector) (embedding d) = Normal s ->
  (threshold <=? toNumber s)%float = true ->
  let prompt := buildPrompt top history userMessage in
  let run := runRAGPipeline cs provider userMessage vectorStore history threshold calls in
  top <> []
  /\ run.2 = calls ++ [EmbedContent userMessage; GenerateContent prompt]
  /\ match generateContent provider (calls ++ [EmbedContent userMessage]) prompt with
     | Throw e => run.1 = Throw (lit "LLM API error: " ++ e)
     | Normal response =>
         match text response with
         | Throw e => run.1 = Throw e
         | Normal r =>
             if forallb numbered top
             then exists result,
                    run.1 = Normal result
                    /\ reply result = r
                    /\ fallback result = false
                    /\ retrievedChunks result = length top
                    /\ map sc_title (scores result) = map s_title top
             else run.1 = Throw NULL_TO_FIXED
         end
     end.
Proof.
  intros Hembed Hrun Hd Hs Ht prompt run.
  assert (top <> []) as Htop
    by (apply (retrieveTopK_nonempty cs (vectorOf queryVector) vectorStore
                 TOP_K_RESULTS threshold d s);
        [unfold TOP_K_RESULTS; lia | done | done | done | done]).
  split; [done |].
  subst run. rewrite runRAGPipeline_unfold, Hembed, Hrun.
  destruct top as [| c rest] eqn:Etop; [done |]. cbv zeta. fold prompt.
  destruct (generateContent _ _ _) as [response | e]; [| done].
  destruct (text response) as [r | e]; [| done].
  rewrite scoreEntries.
  destruct (forallb numbered (c :: rest)); [| done].
  split; [done |]. eexists. split; [done |]. cbn [reply fallback retrievedChunks scores].
  split; [done |]. split; [done |]. split; [done |].
  rewrite map_map. done.
Qed.

Lemma runRAGPipeline_grounded_witness :
  (let run := runRAGPipeline Package.cosineSimilarity answeringProvider
                (lit "bill info") [chunkOf "A" [1; 0]%float; chunkOf "B" [0; 2]%float]
                [] 0.65%float [] in
   exists result,
     run.1 = Normal result
     /\ reply result = lit "Pay by card."
     /\ map sc_title (scores result) = [lit "B"])
  /\ (runRAGPipeline Package.cosineSimilarity emptyVectorProvider
        (lit "bill info") [chunkOf "E" []] [] 0%float []).1
     = Throw NULL_TO_FIXED.
Proof.
  split.
  - destruct (runRAGPipeline_grounded Package.cosineSimilarity answeringProvider
                (lit "bill info") [chunkOf "A" [1; 0]%float; chunkOf "B" [0; 2]%float]
                [] 0.65%float [] (Some [0; 1]%float) (chunkOf "B" [0; 2]%float)
                (Some 1%float) [scoredAs (chunkOf "B" [0; 2]%float) (Some 1%float)])
      as (_ & _ & result & Hrun & Hreply & _ & _ & Htitles).
    + reflexivity.
    + vm_compute. reflexivity.
    + apply list_elem_of_further, list_elem_of_here.
    + vm_compute. reflexivity.
    + vm_compute. reflexivity.
    + exists result. split; [exact Hrun |]. split; [exact Hreply |].
      rewrite Htitles. vm_compute. reflexivity.
  - destruct (runRAGPipeline_grounded Package.cosineSimilarity emptyVectorProvider
                (lit "bill info") [chunkOf "E" []] [] 0%float [] (Some [])
                (chunkOf "E" []) None [scoredAs (chunkOf "E" []) None])
      as (_ & _ & Hrun).
    + reflexivity.
    + vm_compute. reflexivity.
    + apply list_elem_of_here.
    + vm_compute. reflexivity.
    + vm_compute. reflexivity.
    + exact Hrun.
Defined.

End RagMore.

(** ** More on the request handlers *)

Section ServerMore.
Import JS VectorMath SessionStore Rag Server.

(** The validation at the head of the chat handler. *)
Definition validRequest (req : ChatRequest) : bool :=
  match requiredString (sessionId req), requiredString (message req) with
  | Some _, Some raw => (0 <? length (trim raw)) && (length (trim raw) <=? 2000)
  | _, _ => false
  end.

(** The chat handler on a request that passes validation. *)
Lemma chat_valid env req w sid raw :
  requiredString (sessionId req) = Some sid ->
  requiredString (message req) = Some raw ->
  0 < length (trim raw) <= 2000 ->
  chat env req w
  = let s0 := if sessionExists (sessions w) sid then sessions w
              else createSession (sessions w) sid in
    match runRAGPipeline (cosine env) (provider env) (trim raw) (vectorStore env)
            (getHistory (sessions w) sid) (SIMILARITY_THRESHOLD env) (calls w) with
    | (Normal result, calls') =>
        (mkResponse 200
           (ChatBody result (dateNow env (S (clockReads w)) - dateNow env (clockReads w))),
         recordMessage env sid model (reply result)
           (recordMessage env sid user (trim raw)
              (mkWorld s0 calls' (S (S (clockReads w))))))
    | (Throw e, calls') => (errorResponse e, mkWorld s0 calls' (S (clockReads w)))
    end.
Proof.
  intros Hsid Hmsg [Hlo Hhi]. unfold chat. rewrite Hsid, Hmsg.
  destruct (Nat.eqb_spec (length (trim raw)) 0); [lia |].
  destruct (Nat.ltb_spec 2000 (length (trim raw))); [lia |].
  cbv zeta. rewrite <- (autoCreate_history (sessions w) sid).
  destruct (sessionExists (sessions w) sid);
    cbn [readClock withSessions withCalls sessions calls clockReads];
    by destruct (runRAGPipeline _ _ _ _ _ _ _) as [[result | e] calls'].
Qed.

Lemma validRequest_true req :
  validRequest req = true ->
  exists sid raw,
    requiredString (sessionId req) = Some sid
    /\ requiredString (message req) = Some raw
    /\ 0 < length (trim raw) <= 2000.
Proof.
  unfold validRequest.
  destruct (requiredString (sessionId req)) as [sid |]; [| done].
  destruct (requiredString (message req)) as [raw |]; [| done].
  intros [Hlo Hhi]%andb_true_iff.
  apply Nat.ltb_lt in Hlo. apply Nat.leb_le in Hhi. by exists sid, raw.
Qed.

Lemma chat_invalid env req w :
  validRequest req = false ->
  status (chat env req w).1 = 400 /\ (chat env req w).2 = w.
Proof.
  intros Hvalid.
  assert (status (chat env req w).1 = 400) as H400;
    [| split; [done | by apply chat_rejected_unchanged]].
  unfold validRequest in Hvalid. unfold chat.
  destruct (requiredString (sessionId req)) as [sid |]; [| done].
  destruct (requiredString (message req)) as [raw |]; [| done].
  destruct (Nat.eqb_spec (length (trim raw)) 0) as [Hz | Hz]; [done |].
  destruct (Nat.ltb_spec 2000 (length (trim raw))) as [Hl | Hl]; [done |].
  apply andb_false_iff in Hvalid as [Hv | Hv];
    [apply Nat.ltb_ge in Hv | apply Nat.leb_gt in Hv]; lia.
Qed.

Lemma runRAGPipeline_calls cs provider msg store history t calls :
  exists rest,
    (runRAGPipeline cs provider msg store history t calls).2
    = calls ++ EmbedContent msg :: rest.
Proof.
  rewrite runRAGPipeline_unfold.
  destruct (embedContent provider calls msg) as [q | e]; [| by exists []].
  destruct (retrieveTopK _ _ _ _ _) as [[| c top] | e];
    [by exists [] | | by exists []].
  cbv zeta.
  destruct (generateContent _ _ _) as [response | e]; [| by eexists].
  destruct (text response); [| by eexists].
  destruct (mapThrowing scoreEntry (c :: top)); by eexists.
Qed.

Lemma recordMessage_exists env sid r c w :
  sessionExists (sessions (recordMessage env sid r c w)) sid = true.
Proof.
  unfold recordMessage. simpl. rewrite addMessage_lookup.
  apply sessionExists_true. rewrite lookup_insert_eq. eauto.
Qed.

Lemma autoCreate_exists (s : Sessions) sid :
  sessionExists (if sessionExists s sid then s else createSession s sid) sid = true.
Proof.
  destruct (sessionExists s sid) eqn:E; [done |].
  apply sessionExists_true. unfold createSession. rewrite lookup_insert_eq. eauto.
Qed.

(** X15: validation is the only source of a 400.  A request that fails
    validation is answered 400 and changes nothing: no session is created,
    no provider call is made, the clock is not read.  A request that passes
    is never answered 400; whatever the provider then does, the session of
    the request exists afterwards, the clock has been read, and the first
    provider call made is the embedding of the trimmed message. *)
Theorem chat_validation (env : Env) (req : ChatRequest) (w : World) :
  if validRequest req
  then status (chat env req w).1 <> 400
       /\ (exists sid, requiredString (sessionId req) = Some sid
             /\ sessionExists (sessions (chat env req w).2) sid = true)
       /\ clockReads w < clockReads (chat env req w).2
       /\ exists raw rest,
            message req = Str raw
            /\ calls (chat env req w).2 = calls w ++ EmbedContent (trim raw) :: rest
  else status (chat env req w).1 = 400 /\ (chat env req w).2 = w.
Proof.
  destruct (validRequest req) eqn:Hvalid.
  - apply validRequest_true in Hvalid as (sid & raw & Hsid & Hmsg & Hlen).
    rewrite (chat_valid env req w sid raw Hsid Hmsg Hlen). cbv zeta.
    destruct (runRAGPipeline_calls (cosine env) (provider env) (trim raw)
                (vectorStore env) (getHistory (sessions w) sid)
                (SIMILARITY_THRESHOLD env) (calls w)) as [rest Hcalls].
    assert (message req = Str raw) as Hraw.
    { destruct (message req) as [| [| c s] |]; simplify_eq/=; done. }
    destruct (runRAGPipeline _ _ _ _ _ _ _) as [[result | e] calls'];
      cbn [fst snd] in *; subst calls'.
    + split; [cbn [status]; lia |]. split.
      * exists sid. split; [done |]. apply recordMessage_exists.
      * split; [rewrite !recordMessage_clock; cbn [clockReads]; lia |].
        exists raw, rest. split; [done |]. done.
    + split.
      * unfold errorResponse.
        repeat (match goal with |- context [if ?b then _ else _] => destruct b end);
          cbn [status]; lia.
      * split; [exists sid; split; [done |]; apply autoCreate_exists |].
        split; [cbn [clockReads]; lia |]. by exists raw, rest.
  - apply chat_invalid, Hvalid.
Qed.

(** The message of the provider failure that ends an exchange, if any. *)
Definition providerFailure (env : Env) (msg : jsstring) (history : list Message)
    (calls : list Call) : option jsstring :=
  match embedContent (provider env) calls msg with
  | Throw e => Some e
  | Normal queryVector =>
      match retrieveTopK (cosine env) (vectorOf queryVector) (vectorStore env)
              TOP_K_RESULTS (SIMILARITY_THRESHOLD env) with
      | Throw _ | Normal [] => None
      | Normal top =>
          match generateContent (provider env) (calls ++ [EmbedContent msg])
                  (buildPrompt top history msg) with
          | Throw e => Some e
          | Normal response =>
              match text response with
              | Throw e => Some e
              | Normal _ => None
              end
          end
      end
  end.

(** The words the handler looks for in an error message. *)
Definition errorWords : list jsstring :=
  [lit "API key"; lit "quota"; lit "rate"; lit "timeout"; lit "ETIMEDOUT"].

Lemma includes_wrapped word e :
  word ∈ errorWords ->
  includes (lit "Embedding API error: " ++ e) word = includes e word
  /\ includes (lit "LLM API error: " ++ e) word = includes e word.
Proof.
  intros Hword. unfold errorWords in Hword.
  repeat (apply elem_of_cons in Hword as [-> | Hword];
          [split; vm_compute; reflexivity |]).
  by apply elem_of_nil in Hword.
Qed.

Lemma errorResponse_wrapped e :
  errorResponse (lit "Embedding API error: " ++ e) = errorResponse e
  /\ errorResponse (lit "LLM API error: " ++ e) = errorResponse e.
Proof.
  unfold errorResponse.
  destruct (includes_wrapped (lit "API key") e) as [-> ->];
    [unfold errorWords; set_solver |].
  destruct (includes_wrapped (lit "quota") e) as [-> ->];
    [unfold errorWords; set_solver |].
  destruct (includes_wrapped (lit "rate") e) as [-> ->];
    [unfold errorWords; set_solver |].
  destruct (includes_wrapped (lit "timeout") e) as [-> ->];
    [unfold errorWords; set_solver |].
  destruct (includes_wrapped (lit "ETIMEDOUT") e) as [-> ->];
    [unfold errorWords; set_solver |].
  done.
Qed.

(** X16: the error status is decided by the provider's own message.  When
    an exchange of a valid request is ended by a provider failure with
    message e (thrown by the embedding call, the generation call or
    [text()]), the response is the one the handler's classification gives
    for e itself: the prefix the pipeline puts before the message of a
    failed embedding or generation call never changes the class. *)
Theorem chat_error_by_provider_message (env : Env) (req : ChatRequest) (w : World)
    (sid raw e : jsstring) :
  requiredString (sessionId req) = Some sid ->
  requiredString (message req) = Some raw ->
  0 < length (trim raw) <= 2000 ->
  providerFailure env (trim raw) (getHistory (sessions w) sid) (calls w) = Some e ->
  (chat env req w).1 = errorResponse e
  /\ status (chat env req w).1
     = (if includes e (lit "API key") then 401
        else if includes e (lit "quota") || includes e (lit "rate") then 429
        else if includes e (lit "timeout") || includes e (lit "ETIMEDOUT") then 504
        else 500).
Proof.
  intros Hsid Hmsg Hlen Hfail.
  assert ((chat env req w).1 = errorResponse e) as Hresp.
  { rewrite (chat_valid env req w sid raw Hsid Hmsg Hlen). cbv zeta.
    rewrite runRAGPipeline_unfold. unfold providerFailure in Hfail.
    destruct (errorResponse_wrapped e) as [Hembed Hllm].
    destruct (embedContent _ _ _) as [q | e0]; [| by simplify_eq/=].
    destruct (retrieveTopK _ _ _ _ _) as [[| c top] | e0]; [done | | done].
    cbv zeta in Hfail |- *.
    destruct (generateContent _ _ _) as [response | e0]; [| by simplify_eq/=].
    destruct (text response) as [r | e0]; by simplify_eq/=. }
  split; [done |]. rewrite Hresp. unfold errorResponse.
  repeat (match goal with |- context [if ?b then _ else _] => destruct b end); done.
Qed.

Definition wrongKeyProvider : Provider :=
  {| embedContent := fun _ _ => Throw (lit "API key not valid") ;
     generateContent := fun _ _ => Throw (lit "unreachable") |}.

Definition wrongKeyEnv : Env :=
  {| vectorStore := vectorStore demoEnv;
     SIMILARITY_THRESHOLD := SIMILARITY_THRESHOLD demoEnv;
     cosine := cosine demoEnv;
     provider := wrongKeyProvider;
     dateNow := dateNow demoEnv;
     isoString := isoString demoEnv |}.

Lemma chat_error_by_provider_message_witness :
  status (chat wrongKeyEnv demoRequest demoWorld).1 = 401.
Proof.
  destruct (chat_error_by_provider_message wrongKeyEnv demoRequest demoWorld
              (lit "s1") (lit " bill info ") (lit "API key not valid")
              eq_refl eq_refl) as [_ ->].
  - vm_compute. lia.
  - reflexivity.
  - vm_compute. reflexivity.
Defined.

(** A request to one of the two handlers that touch the session store. *)
Inductive Request :=
  | PostChat (req : ChatRequest)
  | DeleteSession (id : jsstring).

Definition handle (env : Env) (r : Request) (w : World) : Response * World :=
  match r with
  | PostChat req => chat env req w
  | DeleteSession id => deleteSession id w
  end.

(** The world after serving the requests in order. *)
Definition serve (env : Env) (requests : list Request) (w : World) : World :=
  foldl (fun w r => (handle env r w).2) w requests.

Lemma addMessage_dom (s : Sessions) sid r c t :
  dom s ⊆ dom (addMessage s sid r c t).
Proof. rewrite addMessage_lookup. rewrite dom_insert. set_solver. Qed.

Lemma autoCreate_dom (s : Sessions) sid :
  dom s ⊆ dom (if sessionExists s sid then s else createSession s sid).
Proof.
  destruct (sessionExists s sid); [done |].
  unfold createSession. rewrite dom_insert. set_solver.
Qed.

Lemma chat_dom env req w : dom (sessions w) ⊆ dom (sessions (chat env req w).2).
Proof.
  destruct (validRequest req) eqn:Hvalid.
  - apply validRequest_true in Hvalid as (sid & raw & Hsid & Hmsg & Hlen).
    rewrite (chat_valid env req w sid raw Hsid Hmsg Hlen). cbv zeta.
    destruct (runRAGPipeline _ _ _ _ _ _ _) as [[result | e] calls']; cbn [fst snd].
    + unfold recordMessage. cbn [readClock withSessions sessions].
      etrans; [apply autoCreate_dom |].
      etrans; [apply addMessage_dom |]. apply addMessage_dom.
    + cbn [sessions]. apply autoCreate_dom.
  - by rewrite (proj2 (chat_invalid env req w Hvalid)).
Qed.

Lemma deleteSession_dom id w :
  dom (sessions (deleteSession id w).2) = dom (sessions w).
Proof.
  unfold deleteSession. destruct (sessionExists (sessions w) id) eqn:E; [| done].
  apply sessionExists_true in E. cbn [negb snd withSessions sessions].
  unfold clearSession. rewrite dom_insert_L.
  apply subseteq_union_1_L, singleton_subseteq_l, elem_of_dom, E.
Qed.

Lemma serve_dom env requests : forall w,
  dom (sessions w) ⊆ dom (sessions (serve env requests w)).
Proof.
  induction requests as [| r rs IH]; intros w; [done |].
  cbn [serve foldl]. etrans; [| apply IH].
  destruct r as [req | id]; cbn [handle].
  - apply chat_dom.
  - by rewrite deleteSession_dom.
Qed.

(** X17: the handlers never remove a session.  Whatever chat and delete
    requests are served, in whatever order and with whatever outcome, every
    session id known before is still known afterwards, and the session
    count never goes down: the delete handler empties a session's turns and
    keeps its id. *)
Theorem sessions_never_removed (env : Env) (requests : list Request) (w : World) :
  dom (sessions w) ⊆ dom (sessions (serve env requests w))
  /\ getSessionCount (sessions w)
     <= getSessionCount (sessions (serve env requests w)).
Proof.
  pose proof (serve_dom env requests w) as Hdom. split; [done |].
  unfold getSessionCount. rewrite <- !size_dom. by apply subseteq_size.
Qed.

(** X18: the delete handler.  It answers 200 when the id is known and 404
    otherwise; either way the set of session ids is what it was, the
    session's history is empty afterwards, every other session keeps its
    stored turns, and neither the provider nor the clock is used. *)
Theorem deleteSession_resets (id : jsstring) (w : World) :
  status (deleteSession id w).1 = (if sessionExists (sessions w) id then 200 else 404)
  /\ dom (sessions (deleteSession id w).2) = dom (sessions w)
  /\ getHistory (sessions (deleteSession id w).2) id = []
  /\ delete id (sessions (deleteSession id w).2) = delete id (sessions w)
  /\ calls (deleteSession id w).2 = calls w
  /\ clockReads (deleteSession id w).2 = clockReads w.
Proof.
  split; [| split; [apply deleteSession_dom |]].
  - unfold deleteSession. by destruct (sessionExists (sessions w) id).
  - unfold deleteSession. destruct (sessionExists (sessions w) id) eqn:E;
      cbn [negb snd withSessions sessions calls clockReads].
    + unfold clearSession. split; [| split; [apply delete_insert_eq | done]].
      unfold getHistory. rewrite lookup_insert_eq. done.
    + apply sessionExists_false in E. split; [| done].
      unfold getHistory. by rewrite E.
Qed.

End ServerMore.

(** ** What the prompt carries *)

Section PromptFacts.
Import JS VectorMath SessionStore Rag.

Lemma startsWith_app_l s b x :
  startsWith s x = true -> startsWith (s ++ b) x = true.
Proof.
  revert s. induction x as [| p x IH]; intros s H; [by destruct (s ++ b) |].
  destruct s as [| c s]; [done |]. simpl in *.
  apply andb_true_iff in H as [-> H]. by rewrite IH.
Qed.

Lemma startsWith_self x : startsWith x x = true.
Proof. induction x as [| p x IH]; simpl; [done |]. by rewrite N.eqb_refl. Qed.

Lemma includes_self x : includes x x = true.
Proof. destruct x; simpl; [done |]. by rewrite N.eqb_refl, startsWith_self. Qed.

Lemma includes_app_l a b x : includes a x = true -> includes (a ++ b) x = true.
Proof.
  induction a as [| c a IH]; intros H.
  - simpl in H. rewrite orb_false_r in H. destruct x; [| done]. by destruct b.
  - cbn [includes] in H. apply orb_true_iff in H as [H | H].
    + change ((c :: a) ++ b) with (c :: a ++ b) in *.
      cbn [includes]. change (c :: a ++ b) with ((c :: a) ++ b).
      by rewrite startsWith_app_l.
    + change ((c :: a) ++ b) with (c :: a ++ b). cbn [includes].
      rewrite IH by done. apply orb_true_r.
Qed.

Lemma includes_app_r a b x : includes b x = true -> includes (a ++ b) x = true.
Proof.
  intros H. induction a as [| c a IH]; [done |].
  change ((c :: a) ++ b) with (c :: a ++ b). cbn [includes].
  rewrite IH. apply orb_true_r.
Qed.

Lemma includes_join sep parts e x :
  e ∈ parts -> includes e x = true -> includes (join sep parts) x = true.
Proof.
  intros He Hx. induction parts as [| p rest IH]; [by apply elem_of_nil in He |].
  apply elem_of_cons in He as [<- | He].
  - destruct rest; [done |]. cbn [join]. by apply includes_app_l.
  - specialize (IH He). destruct rest as [| p' rest']; [by apply elem_of_nil in He |].
    change (join sep (p :: p' :: rest')) with (p ++ sep ++ join sep (p' :: rest')).
    by do 2 apply includes_app_r.
Qed.

Lemma mapi_from_mem {A B} (f : A -> nat -> B) l x : forall i0,
  x ∈ l -> exists i, f x i ∈ mapi_from f i0 l.
Proof.
  induction l as [| y l IH]; intros i0 Hx; [by apply elem_of_nil in Hx |].
  apply elem_of_cons in Hx as [-> | Hx].
  - exists i0. apply list_elem_of_here.
  - destruct (IH (S i0) Hx) as [i Hi]. exists i. by apply list_elem_of_further.
Qed.

Ltac segment :=
  first [ apply includes_self
        | apply includes_app_l, includes_self
        | apply includes_app_r; segment ].

(** X19: the prompt carries its inputs verbatim.  The user's question,
    the title and the content of every retrieved chunk and the content of
    every turn of the history occur in the prompt as they are, with nothing
    escaped or cut. *)
Theorem buildPrompt_verbatim (chunks : list ScoredChunk) (history : list Message)
    (question : jsstring) :
  let prompt := buildPrompt chunks history question in
  includes prompt question = true
  /\ Forall (fun c => includes prompt (s_title c) = true
                      /\ includes prompt (s_content c) = true) chunks
  /\ Forall (fun m => includes prompt (content m) = true) history.
Proof.
  intros prompt. subst prompt. unfold buildPrompt. cbv zeta.
  split; [segment |]. split.
  - apply Forall_forall. intros c Hc.
    destruct chunks as [| c0 chunks0] eqn:Echunks; [by apply elem_of_nil in Hc |].
    rewrite <- Echunks in *.
    replace (0 <? length chunks) with true by (by rewrite Echunks).
    destruct (mapi_from_mem renderChunk chunks c 0 Hc) as [i Hi].
    split.
    + do 7 apply includes_app_r. apply includes_app_l.
      apply (includes_join _ _ (renderChunk c i)); [exact Hi |].
      unfold renderChunk. segment.
    + do 7 apply includes_app_r. apply includes_app_l.
      apply (includes_join _ _ (renderChunk c i)); [exact Hi |].
      unfold renderChunk. segment.
  - apply Forall_forall. intros m Hm.
    destruct history as [| m0 history0] eqn:Ehistory; [by apply elem_of_nil in Hm |].
    rewrite <- Ehistory in *.
    replace (0 <? length history) with true by (by rewrite Ehistory).
    assert (renderTurn m ∈ map renderTurn history) as Hturn
      by (apply list_elem_of_In, in_map, list_elem_of_In, Hm).
    do 14 apply includes_app_r. apply includes_app_l.
    apply (includes_join _ _ (renderTurn m)); [exact Hturn |].
    unfold renderTurn. segment.
Qed.

End PromptFacts.

(** ** Conversation memory across requests *)

Section ConversationFacts.
Import JS VectorMath SessionStore Rag Server.

(** X20: what the next request of a session sees.  After an exchange of a
    valid request that ends with a reply r (the fallback reply included),
    the history of the session is the last eight of the turns stored before,
    at most, followed by the user turn with the trimmed message and the
    assistant turn with r: ten turns at most, the newest exchange last. *)
Theorem chat_extends_history (env : Env) (req : ChatRequest) (w : World)
    (sid raw r : jsstring) :
  requiredString (sessionId req) = Some sid ->
  requiredString (message req) = Some raw ->
  0 < length (trim raw) <= 2000 ->
  exchangeOutcome env (trim raw) (getHistory (sessions w) sid) (calls w) = Reply r ->
  getHistory (sessions (chat env req w).2) sid
  = drop (length (turnsOf (sessions w) sid) - 8) (turnsOf (sessions w) sid)
    ++ [mkMessage user (trim raw) (isoString env (clockReads w + 2));
        mkMessage model r (isoString env (clockReads w + 3))]
  /\ length (getHistory (sessions (chat env req w).2) sid) <= 10.
Proof.
  intros Hsid Hmsg Hlen Hout.
  pose proof (runRAGPipeline_outcome env (trim raw) (getHistory (sessions w) sid)
                (calls w)) as Hrun.
  rewrite Hout in Hrun. destruct Hrun as (result & calls' & Hrun & <-).
  rewrite (chat_valid env req w sid raw Hsid Hmsg Hlen). cbv zeta.
  rewrite Hrun. cbn [snd].
  assert (getHistory
            (sessions
               (recordMessage env sid model (reply result)
                  (recordMessage env sid user (trim raw)
                     {| sessions := if sessionExists (sessions w) sid then sessions w
                                    else createSession (sessions w) sid;
                        calls := calls';
                        clockReads := S (S (clockReads w)) |}))) sid
          = drop (length (turnsOf (sessions w) sid) - 8) (turnsOf (sessions w) sid)
            ++ [mkMessage user (trim raw) (isoString env (clockReads w + 2));
                mkMessage model (reply result) (isoString env (clockReads w + 3))])
    as Hhist.
  { rewrite getHistory_stored, !recordMessage_turns, !recordMessage_clock.
    cbn [sessions clockReads]. rewrite autoCreate_turns, <- app_assoc.
    cbn [app]. rewrite length_app. cbn [length].
    replace (length (turnsOf (sessions w) sid) + 2 - 10)
      with (length (turnsOf (sessions w) sid) - 8) by lia.
    rewrite drop_app_le by lia.
    by replace (clockReads w + 2) with (S (S (clockReads w))) by lia;
       replace (clockReads w + 3) with (S (S (S (clockReads w)))) by lia. }
  split; [exact Hhist |].
  rewrite Hhist, length_app, length_drop. cbn [length]. lia.
Qed.

Lemma chat_extends_history_witness :
  getHistory (sessions (chat demoEnv demoRequest demoWorld).2) (lit "s1")
  = [mkMessage user (lit "bill info") (lit "2");
     mkMessage model FALLBACK_REPLY (lit "3")].
Proof.
  destruct (chat_extends_history demoEnv demoRequest demoWorld
              (lit "s1") (lit " bill info ") FALLBACK_REPLY eq_refl eq_refl)
    as [-> _].
  - vm_compute. lia.
  - vm_compute. reflexivity.
  - vm_compute. reflexivity.
Defined.

End ConversationFacts.
